(** * ton-tracker: event ingestion, deduplication and subscription sync

    A shallow embedding of the Go packages [storage], [tonapi] and [webhook]
    and of [seedAllWallets] from the main package, with the properties of the
    ingestion pipeline proved over it.

    Conventions.
    - Go strings are byte strings: [String.length] is Go's [len].
    - [int64] identifiers are [Z]; no arithmetic is done on them.
    - A Go [(value, error)] pair is a [Result].
    - The database is the SQLite file behind [Storage.db], seen through one
      connection: the tables the pipeline touches, the connection's
      [changes()] counter, and a fault schedule that says which statements
      fail.
    - A runtime panic is the [Panic] outcome. *)

From Stdlib Require Import ZArith Lia.
From stdpp Require Import gmap strings list fin_maps.

#[local] Set Warnings "-clear-no-such-hyp".

Local Open Scope string_scope.
Local Open Scope Z_scope.
Local Open Scope list_scope.

(** ** Results and outcomes *)

Inductive Error : Type :=
  | DbError          (* an error returned by database/sql *)
  | ApiError         (* an error returned by tonapi.Client.doRequest *)
  | ErrNotFound
  | ErrLimitReached
  | ErrAlreadyExists.

Inductive Result (A : Type) : Type :=
  | Ok (a : A)
  | Err (e : Error).
Arguments Ok {A} a.
Arguments Err {A} e.

Definition is_ok {A} (r : Result A) : bool :=
  match r with Ok _ => true | Err _ => false end.

Inductive Outcome (A : Type) : Type :=
  | Done (a : A)
  | Panic.
Arguments Done {A} a.
Arguments Panic {A}.

(** [s[:n]]: Go panics when [n] exceeds [len(s)]. *)
Definition slice_to (s : string) (n : nat) : Outcome string :=
  if (n <=? String.length s)%nat then Done (String.substring 0 n s) else Panic.

(** [s[lo:hi]]: Go panics unless [0 <= lo <= hi <= len(s)]. *)
Definition slice (s : string) (lo hi : Z) : Outcome string :=
  if (0 <=? lo) && (lo <=? hi) && (hi <=? Z.of_nat (String.length s))
  then Done (String.substring (Z.to_nat lo) (Z.to_nat (hi - lo)) s)
  else Panic.

(** Arithmetic on [int64] and [int] wraps around. *)
Definition wrap64 (z : Z) : Z := (z + 2 ^ 63) mod 2 ^ 64 - 2 ^ 63.

(** The bytes of a string. *)
Definition bytes (s : string) : list Z :=
  (fun c => Z.of_nat (Ascii.nat_of_ascii c)) <$> String.list_ascii_of_string s.

(** The runtime's [decoderune]: the rune that starts a byte sequence whose
    first byte is not ASCII, and its width. A sequence that is not valid
    UTF-8 gives U+FFFD and width 1. *)
Definition decoderune (s : list Z) : Z * nat :=
  let b i := nth i s 0 in
  let cont i := (i <? length s)%nat && (128 <=? b i) && (b i <=? 191) in
  let runeError := (65533, 1%nat) in
  if (192 <=? b 0%nat) && (b 0%nat <? 224) then
    if cont 1%nat then
      let r := Z.lor (Z.shiftl (Z.land (b 0%nat) 31) 6) (Z.land (b 1%nat) 63) in
      if 127 <? r then (r, 2%nat) else runeError
    else runeError
  else if (224 <=? b 0%nat) && (b 0%nat <? 240) then
    if cont 1%nat && cont 2%nat then
      let r := Z.lor (Z.lor (Z.shiftl (Z.land (b 0%nat) 15) 12)
                            (Z.shiftl (Z.land (b 1%nat) 63) 6))
                     (Z.land (b 2%nat) 63) in
      if (2047 <? r) && negb ((55296 <=? r) && (r <=? 57343)) then (r, 3%nat)
      else runeError
    else runeError
  else if (240 <=? b 0%nat) && (b 0%nat <? 248) then
    if cont 1%nat && cont 2%nat && cont 3%nat then
      let r := Z.lor (Z.lor (Z.lor (Z.shiftl (Z.land (b 0%nat) 7) 18)
                                   (Z.shiftl (Z.land (b 1%nat) 63) 12))
                            (Z.shiftl (Z.land (b 2%nat) 63) 6))
                     (Z.land (b 3%nat) 63) in
      if (65535 <? r) && (r <=? 1114111) then (r, 4%nat) else runeError
    else runeError
  else runeError.

(** [for _, c := range s]: the runes the loop sees, one per turn. Every turn
    consumes a byte at least, so [fuel] the length of [s] is enough. *)
Fixpoint range_runes (fuel : nat) (s : list Z) : list Z :=
  match fuel, s with
  | S fuel, b :: rest =>
      if b <? 128 then b :: range_runes fuel rest
      else let '(r, width) := decoderune s in r :: range_runes fuel (drop width s)
  | _, _ => []
  end.

Definition runes (s : string) : list Z := range_runes (String.length s) (bytes s).

(** ** Package storage *)

Module storage.

(** [storage.Wallet]. [MinAmountTON] and [CreatedAt] are read only by the
    notifier's amount filters and are left out. *)
Record Wallet : Type := mkWallet {
  ID : Z;
  UserID : Z;
  Name : string;
  AddressRaw : string;
  AddressDisplay : string
}.

(** The database behind [Storage]. *)
Record Storage : Type := mkStorage {
  wallets : list Wallet;                 (* table wallets, in rowid order *)
  wallets_seq : Z;                       (* AUTOINCREMENT high-water mark *)
  processed_events : gset (Z * string);  (* PRIMARY KEY (wallet_id, event_id) *)
  changes : Z;                           (* SELECT changes() *)
  stmts : nat;                           (* statements issued so far *)
  faults : nat -> bool                   (* does the n-th statement fail? *)
}.

Definition set_wallets (ws : list Wallet) (seq : Z) (s : Storage) : Storage :=
  mkStorage ws seq (processed_events s) (changes s) (stmts s) (faults s).
Definition set_processed (pe : gset (Z * string)) (s : Storage) : Storage :=
  mkStorage (wallets s) (wallets_seq s) pe (changes s) (stmts s) (faults s).
Definition set_changes (n : Z) (s : Storage) : Storage :=
  mkStorage (wallets s) (wallets_seq s) (processed_events s) n (stmts s) (faults s).

(** Issue one statement: tells whether it fails and counts it. *)
Definition stmt (s : Storage) : bool * Storage :=
  (faults s (stmts s),
   mkStorage (wallets s) (wallets_seq s) (processed_events s) (changes s)
             (S (stmts s)) (faults s)).

Definition max_id (ws : list Wallet) : Z :=
  foldr (fun w m => Z.max (ID w) m) 0 ws.

(** [AddWallet]: count the user's wallets, refuse at the limit, insert
    with the next AUTOINCREMENT rowid. *)
Definition AddWallet (userID : Z) (name addressRaw addressDisplay : string)
    (maxWallets : Z) (s : Storage) : Result Wallet * Storage :=
  let '(failed, s) := stmt s in
  if failed then (Err DbError, s) else
  let count := Z.of_nat (length (filter (fun w => UserID w = userID) (wallets s))) in
  if maxWallets <=? count then (Err ErrLimitReached, s) else
  let '(failed, s) := stmt s in
  if failed then (Err DbError, s) else
  let id := 1 + Z.max (wallets_seq s) (max_id (wallets s)) in
  let w := mkWallet id userID name addressRaw addressDisplay in
  (Ok w, set_changes 1 (set_wallets (wallets s ++ [w]) id s)).

(** [GetWalletsByRaw]: SELECT ... WHERE address_raw = ?. *)
Definition GetWalletsByRaw (addressRaw : string) (s : Storage)
    : Result (list Wallet) * Storage :=
  let '(failed, s) := stmt s in
  if failed then (Err DbError, s)
  else (Ok (filter (fun w => AddressRaw w = addressRaw) (wallets s)), s).

(** [GetAllWallets]: SELECT ... FROM wallets. *)
Definition GetAllWallets (s : Storage) : Result (list Wallet) * Storage :=
  let '(failed, s) := stmt s in
  if failed then (Err DbError, s) else (Ok (wallets s), s).

(** [RemoveWallet]: delete the user's wallet row, then every ledger row
    of that wallet id. *)
Definition RemoveWallet (userID walletID : Z) (s : Storage)
    : Result unit * Storage :=
  let '(failed, s) := stmt s in
  if failed then (Err DbError, s) else
  let keep := filter (fun w => ¬ (UserID w = userID ∧ ID w = walletID)) (wallets s) in
  let s := set_changes (Z.of_nat (length (wallets s)) - Z.of_nat (length keep))
             (set_wallets keep (wallets_seq s) s) in
  (* Also remove processed events *)
  let '(failed, s) := stmt s in
  if failed then (Err DbError, s) else
  let gone := filter (fun p : Z * string => p.1 = walletID) (processed_events s) in
  (Ok tt, set_changes (Z.of_nat (size gone))
            (set_processed (processed_events s ∖ gone) s)).

(** INSERT OR IGNORE INTO processed_events: a row that is already there is
    left alone and the statement changes nothing. *)
Definition insert_or_ignore (walletID : Z) (eventID : string) (s : Storage) : Storage :=
  if decide ((walletID, eventID) ∈ processed_events s)
  then set_changes 0 s
  else set_changes 1 (set_processed ({[ (walletID, eventID) ]} ∪ processed_events s) s).

(** [MarkEventProcessed] marks an event as processed, returns true if it
    was new: the insert, then SELECT changes(). *)
Definition MarkEventProcessed (walletID : Z) (eventID : string) (s : Storage)
    : Result bool * Storage :=
  let '(failed, s) := stmt s in
  if failed then (Err DbError, s) else
  let s := insert_or_ignore walletID eventID s in
  (* Check if it was actually inserted *)
  let '(failed, s) := stmt s in
  if failed then (Err DbError, s) else
  (Ok (0 <? changes s), s).

(** A database that never fails, with the given tables. *)
Definition healthy (ws : list Wallet) (pe : gset (Z * string)) : Storage :=
  mkStorage ws (max_id ws) pe 0 0 (fun _ => false).

(** [GetWallet] returns a wallet by ID: the row with that id, [ErrNotFound]
    when the query has no row. *)
Definition GetWallet (walletID : Z) (s : Storage) : Result Wallet * Storage :=
  let '(failed, s) := stmt s in
  if failed then (Err DbError, s) else
  match filter (fun w => ID w = walletID) (wallets s) with
  | [] => (Err ErrNotFound, s)
  | w :: _ => (Ok w, s)
  end.

(** The database [New] creates on a new file: the tables of [init], empty. *)
Definition fresh (faults : nat -> bool) : Storage :=
  mkStorage [] 0 ∅ 0 0 faults.

End storage.

(** ** Package tonapi *)

Module tonapi.

(** [tonapi.Event]; the actions are consumed only by the notifier. *)
Record Event : Type := mkEvent {
  EventID : string;
  Timestamp : Z;
  IsScam : bool
}.

(** [tonapi.WebhookPayload], as decoded from the request body. *)
Record WebhookPayload : Type := mkPayload {
  EventType : string;
  AccountID : string;
  TxHash : string;
  Lt : Z;
  Event_ : option Event        (* the [Event *Event] field; [None] is nil *)
}.

(** *** The upstream service

    What the n-th request issued through the client is answered with.
    Any upstream behaviour, failures included, is such a table. *)
Record Upstream : Type := mkUpstream {
  events_at : nat -> string -> Z -> Result (list Event);
  event_by_hash_at : nat -> string -> Result Event;
  subscribe_at : nat -> Z -> list string -> Result unit;
  unsubscribe_at : nat -> Z -> list string -> Result unit
}.

(** *** Rate limiting

    Instants and durations are nanoseconds in [Z]; instant 0 is the zero
    [time.Time] a fresh client holds in [lastCall]. *)
Definition Millisecond : Z := 1000000.
Definition maxDuration : Z := 2 ^ 63 - 1.
Definition minDuration : Z := - 2 ^ 63.

(** [t.Sub(u)]: the difference, saturated to the range of [Duration]. *)
Definition Sub (t u : Z) : Z :=
  Z.max minDuration (Z.min maxDuration (t - u)).

(** The rate-limiting fields of [Client]. *)
Record Client : Type := mkClient {
  lastCall : Z;
  minDelay : Z
}.

Definition NewClient : Client :=
  {| lastCall := 0; minDelay := 250 * Millisecond |}.   (* ~4 RPS *)

(** [throttle], entered with the mutex held at instant [now]. [time.Sleep]
    pauses for at least the duration asked; [oversleep] is the excess.
    The result is the instant stored in [lastCall], at which the mutex is
    released and [doRequest] goes on to send. *)
Definition throttle (now : Z) (oversleep : N) (c : Client) : Z * Client :=
  let elapsed := Sub now (lastCall c) in
  let now :=
    if elapsed <? minDelay c
    then now + (minDelay c - elapsed) + Z.of_N oversleep
    else now in
  (now, {| lastCall := now; minDelay := minDelay c |}).

(** One [doRequest] in time: when the request was sent and when the call
    returned to its caller. *)
Record Timing : Type := mkTiming {
  issued : Z;
  returned : Z
}.

Definition doRequest (now : Z) (oversleep latency : N) (c : Client)
    : Timing * Client :=
  let '(t, c) := throttle now oversleep c in
  ({| issued := t; returned := t + Z.of_N latency |}, c).

(** A call made by some goroutine: when it reaches [c.mu.Lock()], how much
    a sleep overshoots, how long the HTTP round trip takes. *)
Record Call : Type := mkCall {
  arrive : Z;
  oversleep_of : N;
  latency_of : N
}.

(** Calls in the order they take the mutex. A caller gets the mutex when it
    has arrived and the previous holder has released it ([free]); the
    round trip happens outside the lock. *)
Fixpoint run (free : Z) (c : Client) (calls : list Call) : list Timing :=
  match calls with
  | [] => []
  | k :: calls =>
      let '(t, c) := doRequest (Z.max (arrive k) free) (oversleep_of k) (latency_of k) c in
      t :: run (issued t) c calls
  end.

(** The reading of the throttle under which a caller waits out the interval
    counted from the return of the previous call. *)
Definition waits_since_return (c : Client) (now : Z) (oversleep latency oversleep' : N) : Prop :=
  let '(t1, c1) := doRequest now oversleep latency c in
  let '(t2, _) := doRequest (returned t1) oversleep' 0 c1 in
  returned t1 + minDelay c <= issued t2.

(** [ShortAddr] returns a shortened address for display. *)
Definition ShortAddr (addr : string) (n : Z) : Outcome string :=
  if bool_decide (addr = "") then Done "unknown"
  else if Z.of_nat (String.length addr) <? wrap64 (wrap64 (n * 2) + 3) then Done addr
  else
    match slice addr 0 n with
    | Panic => Panic
    | Done head =>
        match slice addr (wrap64 (Z.of_nat (String.length addr) - n))
                (Z.of_nat (String.length addr)) with
        | Panic => Panic
        | Done tail => Done (head +:+ "..." +:+ tail)
        end
    end.

(** [tonapi.Webhook]; the field [ID] goes by its JSON name. *)
Record Webhook : Type := mkWebhook {
  webhook_id : Z;
  Endpoint : string;
  Accounts : list string
}.

(** What the upstream answers to [ListWebhooks] and to [CreateWebhook]. *)
Record Registrations : Type := mkRegistrations {
  list_webhooks : Result (list Webhook);
  create_webhook : string -> Result Webhook
}.

(** *** The actions of an event

    [Event.Actions], kept beside the [Event] record above. Of each struct the
    fields the notifier reads. *)
Record Account : Type := mkAccount {
  Address : string
}.

Record TonTransfer : Type := mkTonTransfer {
  Sender : Account;
  Recipient : Account;
  Amount : Z;                  (* in nanoTON *)
  Comment : string
}.

Record JettonInfo : Type := mkJettonInfo {
  Address_ : string;           (* [JettonInfo.Address] *)
  Symbol : string;
  Decimals : Z
}.

Record JettonSwap : Type := mkJettonSwap {
  Dex : string;
  TonIn : Z;
  TonOut : Z;
  AmountIn : string;
  AmountOut : string;
  JettonMasterIn : option JettonInfo;
  JettonMasterOut : option JettonInfo
}.

Record Action : Type := mkAction {
  Type_ : string;
  TonTransfer_ : option TonTransfer;   (* [None] is nil *)
  JettonSwap_ : option JettonSwap
}.

End tonapi.

(** ** The running process: storage, upstream, and what has been done *)

Import storage tonapi.

Inductive Level : Type := LDebug | LInfo | LWarn | LError.

(** What the pipeline does to the outside, in the order it does it. *)
Inductive Effect : Type :=
  | ELog (lv : Level) (msg : string) (nums : list Z)
  | EGetWalletsByRaw (addressRaw : string)
  | EGetAllWallets
  | EMark (walletID : Z) (eventID : string) (r : Result bool)
  | EGetEvents (address : string) (limit : Z)
  | EGetEventByHash (txHash : string)
  | ESubscribe (webhookID : Z) (accounts : list string)
  | EUnsubscribe (webhookID : Z) (accounts : list string)
  | EDispatch (wallet : Wallet) (event : Event).   (* go s.handler(ctx, &wallet, event) *)

Record World : Type := mkWorld {
  store : Storage;
  upstream : Upstream;
  calls : nat;                 (* requests issued through the client so far *)
  trace : list Effect
}.

Definition emit (e : Effect) (w : World) : World :=
  mkWorld (store w) (upstream w) (calls w) (trace w ++ [e]).

Definition log (lv : Level) (msg : string) (nums : list Z) (w : World) : World :=
  emit (ELog lv msg nums) w.

(** Run a storage operation against the world's database. *)
Definition on_store {A} (e : Effect) (op : Storage -> A * Storage) (w : World) : A * World :=
  let '(a, st) := op (store w) in
  (a, emit e (mkWorld st (upstream w) (calls w) (trace w))).

(** Issue a request through the client and take the upstream's answer. *)
Definition request {A} (e : Effect) (answer : Upstream -> nat -> A) (w : World) : A * World :=
  (answer (upstream w) (calls w),
   emit e (mkWorld (store w) (upstream w) (S (calls w)) (trace w))).

Definition markEventProcessed (walletID : Z) (eventID : string) (w : World)
    : Result bool * World :=
  let '(r, st) := MarkEventProcessed walletID eventID (store w) in
  (r, emit (EMark walletID eventID r) (mkWorld st (upstream w) (calls w) (trace w))).

Definition GetEvents (address : string) (limit : Z) (w : World) : Result (list Event) * World :=
  request (EGetEvents address limit) (fun u n => events_at u n address limit) w.

Definition GetEventByHash (txHash : string) (w : World) : Result Event * World :=
  request (EGetEventByHash txHash) (fun u n => event_by_hash_at u n txHash) w.

Definition SubscribeAccounts (webhookID : Z) (accounts : list string) (w : World)
    : Result unit * World :=
  request (ESubscribe webhookID accounts) (fun u n => subscribe_at u n webhookID accounts) w.

Definition UnsubscribeAccounts (webhookID : Z) (accounts : list string) (w : World)
    : Result unit * World :=
  request (EUnsubscribe webhookID accounts) (fun u n => unsubscribe_at u n webhookID accounts) w.

(** The pairs handed to the downstream handler, and the pairs the ledger
    reported as new. *)
Definition dispatches (tr : list Effect) : list (Z * string) :=
  omap (fun e => match e with
                 | EDispatch wl ev => Some (ID wl, EventID ev)
                 | _ => None
                 end) tr.

Definition news (tr : list Effect) : list (Z * string) :=
  omap (fun e => match e with
                 | EMark wid eid (Ok true) => Some (wid, eid)
                 | _ => None
                 end) tr.

(** Effects that reach the database or the handler. *)
Definition touches_pipeline (e : Effect) : bool :=
  match e with
  | ELog _ _ _ => false
  | _ => true
  end.

(** ** Package webhook: the receiver *)

Module webhook.

(** An inbound request: its method and what [json.Decode] makes of its
    body ([None]: the decoder returned an error). *)
Record Request : Type := mkRequest {
  Method : string;
  Body : option WebhookPayload
}.

(** What [handleWebhook] leaves behind when it returns: the status written
    with [WriteHeader], its log lines, and the payload handed to
    [go s.processTransaction]. *)
Record Response : Type := mkResponse {
  Status : Z;
  Logged : list Effect;
  Spawned : option WebhookPayload
}.

Definition StatusOK : Z := 200.
Definition StatusBadRequest : Z := 400.
Definition StatusMethodNotAllowed : Z := 405.

Definition truncate (s : string) (n : nat) : string :=
  if (String.length s <=? n)%nat then s else String.substring 0 n s +:+ "...".

Definition handleWebhook (r : Request) : Outcome Response :=
  if negb (bool_decide (Method r = "POST")) then
    Done (mkResponse StatusMethodNotAllowed [] None)
  else
    match Body r with
    | None =>
        Done (mkResponse StatusBadRequest [ELog LWarn "invalid webhook payload" []] None)
    | Some payload =>
        (* Ignore mempool and new_contract events *)
        if bool_decide (EventType payload = "mempool_msg")
           || bool_decide (EventType payload = "new_contract") then
          Done (mkResponse StatusOK [] None)
        (* Account transaction event *)
        else if bool_decide (AccountID payload = "") then
          Done (mkResponse StatusOK [ELog LWarn "missing account_id in webhook" []] None)
        else
          match slice_to (AccountID payload) 10 with
          | Panic => Panic
          | Done _ =>
              (* Process asynchronously *)
              Done (mkResponse StatusOK [ELog LDebug "webhook received" []] (Some payload))
          end
    end.

(** The body of the loop over the matching wallets. *)
Definition process_wallet (event : Event) (w : World) (wallet : Wallet) : World :=
  (* Check if already processed *)
  let '(isNew, w) := markEventProcessed (ID wallet) (EventID event) w in
  match isNew with
  | Err _ => log LError "mark event processed" [] w
  | Ok false => log LDebug "event already processed" [ID wallet] w
  | Ok true => emit (EDispatch wallet event) w
  end.

Definition process_event (wallets : list Wallet) (event : Event) (w : World) : World :=
  if bool_decide (EventID event = "") then
    log LWarn "no event_id in event" [] w
  else
    let w := log LInfo "processing event" [Z.of_nat (length wallets)] w in
    (* Process for each wallet in parallel *)
    foldl (process_wallet event) w wallets.

Definition processTransaction (payload : WebhookPayload) (w : World) : Outcome World :=
  (* Find wallets by address *)
  let '(wallets, w) :=
    on_store (EGetWalletsByRaw (AccountID payload)) (GetWalletsByRaw (AccountID payload)) w in
  match wallets with
  | Err _ => Done (log LError "get wallets by raw" [] w)
  | Ok wallets =>
      if (length wallets =? 0)%nat then
        match slice_to (AccountID payload) 10 with
        | Panic => Panic
        | Done _ => Done (log LDebug "no wallets found for account" [] w)
        end
      else
        (* Get event (from payload or fetch) *)
        match Event_ payload with
        | Some event => Done (process_event wallets event w)
        | None =>
            if negb (bool_decide (TxHash payload = "")) then
              let '(event, w) := GetEventByHash (TxHash payload) w in
              match event with
              | Err _ => Done (log LWarn "fetch event by hash" [] w)
              | Ok event => Done (process_event wallets event w)
              end
            else Done (log LWarn "no event data and no tx_hash" [] w)
        end
  end.

(** One delivery to the endpoint: the handler, then the goroutine it
    started. The first component is the status the sender gets, if any;
    a panic of the handler leaves none. *)
Definition deliver (r : Request) (w : World) : option Z * Outcome World :=
  match handleWebhook r with
  | Panic => (None, Done w)
  | Done resp =>
      let w := mkWorld (store w) (upstream w) (calls w) (trace w ++ Logged resp) in
      (Some (Status resp),
       match Spawned resp with
       | None => Done w
       | Some payload => processTransaction payload w
       end)
  end.

(** Payloads processed one after the other; a panic ends the process. *)
Fixpoint process_all (payloads : list WebhookPayload) (w : World) : Outcome World :=
  match payloads with
  | [] => Done w
  | p :: payloads =>
      match processTransaction p w with
      | Panic => Panic
      | Done w => process_all payloads w
      end
  end.

(** *** The subscription manager *)

Record Manager : Type := mkManager {
  endpoint : string;
  webhookID : Z;
  subscribed : gmap string bool
}.

Definition NewManager (endpoint : string) : Manager :=
  {| endpoint := endpoint; webhookID := 0; subscribed := ∅ |}.

(** [m[k]] on a [map[string]bool]: false when the key is missing. *)
Definition index (m : gmap string bool) (k : string) : bool :=
  default false (m !! k).

(** [for k := range m]: the keys, in some order. *)
Definition keys (m : gmap string bool) : list string :=
  (map_to_list m).*1.

Definition build_needed (wallets : list Wallet) : gmap string bool :=
  foldl (fun needed w => <[AddressRaw w := true]> needed) ∅ wallets.

Definition find_toAdd (needed subscribed : gmap string bool) : list string :=
  filter (fun addr => index subscribed addr = false) (keys needed).

Definition find_toRemove (needed subscribed : gmap string bool) : list string :=
  filter (fun addr => index needed addr = false) (keys subscribed).

(** Subscribe new addresses. *)
Definition sync_add (toAdd : list string) (mw : Manager * World) : Manager * World :=
  let '(m, w) := mw in
  if (0 <? length toAdd)%nat then
    let '(err, w) := SubscribeAccounts (webhookID m) toAdd w in
    match err with
    | Err _ => (m, log LError "subscribe accounts" [Z.of_nat (length toAdd)] w)
    | Ok _ =>
        (mkManager (endpoint m) (webhookID m)
           (foldl (fun sub addr => <[addr := true]> sub) (subscribed m) toAdd),
         log LInfo "subscribed accounts" [Z.of_nat (length toAdd)] w)
    end
  else (m, w).

(** Unsubscribe removed addresses. *)
Definition sync_remove (toRemove : list string) (mw : Manager * World) : Manager * World :=
  let '(m, w) := mw in
  if (0 <? length toRemove)%nat then
    let '(err, w) := UnsubscribeAccounts (webhookID m) toRemove w in
    match err with
    | Err _ => (m, log LError "unsubscribe accounts" [Z.of_nat (length toRemove)] w)
    | Ok _ =>
        (mkManager (endpoint m) (webhookID m)
           (foldl (fun sub addr => delete addr sub) (subscribed m) toRemove),
         log LInfo "unsubscribed accounts" [Z.of_nat (length toRemove)] w)
    end
  else (m, w).

Definition sync (m : Manager) (w : World) : Result unit * (Manager * World) :=
  if webhookID m =? 0 then (Ok tt, (m, w)) else
  (* Get all wallets from DB *)
  let '(wallets, w) := on_store EGetAllWallets GetAllWallets w in
  match wallets with
  | Err e => (Err e, (m, w))
  | Ok wallets =>
      (* Build set of addresses we need *)
      let needed := build_needed wallets in
      (* Find addresses to add and remove *)
      let toAdd := find_toAdd needed (subscribed m) in
      let toRemove := find_toRemove needed (subscribed m) in
      (Ok tt, sync_remove toRemove (sync_add toAdd (m, w)))
  end.

(** Every entry of the cache holds [true]: so it is made, and so [sync]
    keeps it. *)
Definition cache_ok (m : Manager) : Prop :=
  map_Forall (fun _ v => v = true) (subscribed m).

(** The requests [Init] makes. *)
Inductive RegistrationCall : Type :=
  | CallListWebhooks
  | CallCreateWebhook (endpoint : string).

(** [Init] initializes the webhook, creating it if necessary. *)
Definition Init (up : Registrations) (m : Manager)
    : Result unit * Manager * list RegistrationCall :=
  if bool_decide (endpoint m = "") then (Ok tt, m, [])
  else
    (* List existing webhooks *)
    match list_webhooks up with
    | Err e => (Err e, m, [CallListWebhooks])
    | Ok webhooks =>
        (* Find or create webhook *)
        match list_find (fun wh => Endpoint wh = endpoint m) webhooks with
        | Some (_, wh) =>
            (Ok tt, mkManager (endpoint m) (webhook_id wh) (subscribed m), [CallListWebhooks])
        | None =>
            (* Create new webhook *)
            match create_webhook up (endpoint m) with
            | Err e => (Err e, m, [CallListWebhooks; CallCreateWebhook (endpoint m)])
            | Ok webhook =>
                (Ok tt, mkManager (endpoint m) (webhook_id webhook) (subscribed m),
                 [CallListWebhooks; CallCreateWebhook (endpoint m)])
            end
        end
    end.

(** [GetWebhookID] returns the current webhook ID. *)
Definition GetWebhookID (m : Manager) : Z := webhookID m.

(** The ticks of [SyncLoop]: [sync] again and again, its error only logged. *)
Fixpoint ticks (n : nat) (m : Manager) (w : World) : Manager * World :=
  match n with
  | O => (m, w)
  | S n =>
      let '(err, (m, w)) := sync m w in
      match err with
      | Err _ => ticks n m (log LError "sync subscriptions" [] w)
      | Ok _ => ticks n m w
      end
  end.

End webhook.

(** ** Package main: the backfill seeder *)

Module main.

Definition seed_event (wl : Wallet) (acc : World * Z) (ev : Event) : World * Z :=
  let '(w, totalSeeded) := acc in
  if negb (bool_decide (EventID ev = "")) then
    let '(isNew, w) := markEventProcessed (ID wl) (EventID ev) w in
    match isNew with
    | Ok true => (w, totalSeeded + 1)
    | _ => (w, totalSeeded)
    end
  else (w, totalSeeded).

Definition seed_wallet (acc : World * Z) (wl : Wallet) : World * Z :=
  let '(w, totalSeeded) := acc in
  let '(events, w) := GetEvents (AddressRaw wl) 5 w in
  match events with
  | Err _ => (log LWarn "fetch events for seeding" [ID wl] w, totalSeeded)
  | Ok events => foldl (seed_event wl) (w, totalSeeded) events
  end.

(** [seedAllWallets] marks all existing events as processed to avoid
    sending old notifications. *)
Definition seedAllWallets (w : World) : World :=
  let '(wallets, w) := on_store EGetAllWallets GetAllWallets w in
  match wallets with
  | Err _ => log LError "get all wallets for seeding" [] w
  | Ok wallets =>
      if (length wallets =? 0)%nat then log LInfo "no wallets to seed" [] w
      else
        let w := log LInfo "seeding wallets" [Z.of_nat (length wallets)] w in
        let '(w, totalSeeded) := foldl seed_wallet (w, 0) wallets in
        log LInfo "seeding complete" [totalSeeded] w
  end.

End main.

(** ** Package notifier *)

Module notifier.

(** *** What [HandleEvent] sends

    [float64], its [<], its zero value and the two conversions of package
    tonapi into it are kept abstract: what follows holds whatever they
    compute. *)
Section Amounts.

Context {float64 : Type}.
Variable lt : float64 -> float64 -> bool.
Variable zero : float64.
Variable NanoToTON : Z -> float64.
Variable JettonUnitsToAmount : string -> Z -> float64.

Record Swap : Type := mkSwap {
  Dex : string;
  Side : string;               (* "buy" or "sell" *)
  FromSymbol : string;
  FromAmount : float64;
  ToSymbol : string;
  ToAmount : float64;
  TonAmount : float64;
  JettonSymbol : string;
  JettonAmount : float64;
  JettonMaster : string
}.

Record Transfer : Type := mkTransfer {
  Direction : string;          (* "in" or "out" *)
  Amount : float64;
  Sender : string;
  Recipient : string;
  Comment : string
}.

(** The body of the loop of [extractSwaps] for a swap action. *)
Definition swap_of (js : JettonSwap) : Swap :=
  if 0 <? TonIn js then
    (* Buying jetton with TON *)
    let from := NanoToTON (TonIn js) in
    match JettonMasterOut js with
    | Some out =>
        let to := JettonUnitsToAmount (AmountOut js) (Decimals out) in
        mkSwap (tonapi.Dex js) "buy" "TON" from (Symbol out) to from
               (Symbol out) to (Address_ out)
    | None => mkSwap (tonapi.Dex js) "buy" "TON" from "" zero from "" zero ""
    end
  else if 0 <? TonOut js then
    (* Selling jetton for TON *)
    let to := NanoToTON (TonOut js) in
    match JettonMasterIn js with
    | Some inn =>
        let from := JettonUnitsToAmount (AmountIn js) (Decimals inn) in
        mkSwap (tonapi.Dex js) "sell" (Symbol inn) from "TON" to to
               (Symbol inn) from (Address_ inn)
    | None => mkSwap (tonapi.Dex js) "sell" "" zero "TON" to to "" zero ""
    end
  else mkSwap (tonapi.Dex js) "" "" zero "" zero zero "" zero "".

Definition extractSwaps (Actions : list Action) : list Swap :=
  omap (fun action =>
          if bool_decide (Type_ action ≠ "JettonSwap") then None
          else swap_of <$> JettonSwap_ action) Actions.

(** The body of the loop of [extractTransfers] for a transfer action. *)
Definition transfer_of (watchedRaw : string) (tt : TonTransfer) : option Transfer :=
  let tr direction :=
    mkTransfer direction (NanoToTON (tonapi.Amount tt)) (Address (tonapi.Sender tt))
               (Address (tonapi.Recipient tt)) (tonapi.Comment tt) in
  if bool_decide (Address (tonapi.Recipient tt) = watchedRaw) then Some (tr "in")
  else if bool_decide (Address (tonapi.Sender tt) = watchedRaw) then Some (tr "out")
  else None.

Definition extractTransfers (Actions : list Action) (watchedRaw : string)
    : list Transfer :=
  omap (fun action =>
          if bool_decide (Type_ action ≠ "TonTransfer") then None
          else TonTransfer_ action ≫= transfer_of watchedRaw) Actions.

(** The texts, named by what they are formatted from. *)
Inductive Text : Type :=
  | formatSwapMessage (wallet : Wallet) (swap : Swap)
  | formatTransferMessage (wallet : Wallet) (tr : Transfer).

(** A call of [bot.SendNotification]. *)
Record Sent : Type := SendNotification {
  chat : Z;
  text : Text
}.

(** [wallet.MinAmountTON != nil && amount < *wallet.MinAmountTON]. *)
Definition below_min (MinAmountTON : option float64) (amount : float64) : bool :=
  match MinAmountTON with
  | Some m => lt amount m
  | None => false
  end.

(** [HandleEvent]: the notifications it sends, in order; a failed send is
    logged and changes nothing else. [wallet.MinAmountTON] and
    [event.Actions], which the records [Wallet] and [Event] leave out, are
    passed beside them; [MinTransferTON] is the field of the configuration. *)
Definition HandleEvent (MinTransferTON : float64) (wallet : Wallet)
    (MinAmountTON : option float64) (event : Event) (Actions : list Action)
    : list Sent :=
  (* Extract swaps and transfers *)
  let swaps := extractSwaps Actions in
  let transfers := extractTransfers Actions (AddressRaw wallet) in
  (* Process swaps *)
  omap (fun swap =>
          if below_min MinAmountTON (TonAmount swap) then None
          else Some (SendNotification (UserID wallet) (formatSwapMessage wallet swap)))
       swaps
  (* Process transfers (only if no swaps to avoid duplicates from swap fees) *)
  ++ (if bool_decide (swaps = []) then
        omap (fun tr =>
                if below_min MinAmountTON (Amount tr) then None
                else if lt (Amount tr) MinTransferTON then None
                else Some (SendNotification (UserID wallet)
                                            (formatTransferMessage wallet tr)))
             transfers
      else []).

End Amounts.

(** *** The premium checker's id parser *)

(** [parseUserID]: the runes of [s] folded into an [int64]. [c - '0'] is
    computed on [int32] and cannot wrap, a rune being at most U+10FFFF. *)
Definition parseUserID (s : string) : Result Z :=
  Ok (foldl (fun id c => wrap64 (wrap64 (id * 10) + (c - 48))) 0 (runes s)).

End notifier.

(** ** Vocabulary of the properties *)

(** Wallet ids in the ledger were handed out by the wallets table. *)
Definition ledger_known (s : Storage) : Prop :=
  ∀ p, p ∈ processed_events s → p.1 <= wallets_seq s.

(** [w'] is reached from [w] by doing [new]: the ledger only grows, the pairs
    reported new were absent before and are present after, each once, and
    every dispatch follows such a report. *)
Record steps_to (w w' : World) (new : list Effect) : Prop := mkSteps {
  st_trace : trace w' = trace w ++ new;
  st_upstream : upstream w' = upstream w;
  st_faults : faults (store w') = faults (store w);
  st_grow : processed_events (store w) ⊆ processed_events (store w');
  st_nodup : NoDup (news new);
  st_fresh : ∀ p, p ∈ news new →
               (p ∉ processed_events (store w)) ∧ (p ∈ processed_events (store w'));
  st_disp : dispatches new `sublist_of` news new
}.

(** A stretch of seeding: it dispatches nothing and issues [k] requests. *)
Definition seeds_to (w w' : World) (k : nat) : Prop :=
  ∃ new, steps_to w w' new ∧ dispatches new = [] ∧ calls w' = (calls w + k)%nat.

(** What seeding does for a wallet whose events are requested as request
    number [n] of the upstream [u]. *)
Definition seeded (u : Upstream) (never_fails : Prop) (n : nat) (wl : Wallet) (w' : World) : Prop :=
  EGetEvents (AddressRaw wl) 5 ∈ trace w'
  ∧ (is_ok (events_at u n (AddressRaw wl) 5) = false →
     ELog LWarn "fetch events for seeding" [ID wl] ∈ trace w')
  ∧ ∀ evs ev, events_at u n (AddressRaw wl) 5 = Ok evs → ev ∈ evs → EventID ev ≠ "" →
      (∃ r, EMark (ID wl) (EventID ev) r ∈ trace w')
      ∧ (never_fails → (ID wl, EventID ev) ∈ processed_events (store w')).

(** Sample data. *)
Definition alice : Wallet := mkWallet 1 7 "alice" "0:aaaaaaaaaaaa" "UQaaaaaaaaaa".
Definition bob : Wallet := mkWallet 2 8 "bob" "0:aaaaaaaaaaaa" "UQaaaaaaaaaa".
Definition carol : Wallet := mkWallet 3 7 "carol" "0:cccccccccccc" "UQcccccccccc".

Definition sample_ledger : gset (Z * string) := {[ (1, "e1"); (1, "e2"); (2, "e1") ]}.

Definition sample_store : Storage := healthy [alice; bob; carol] sample_ledger.

Definition silent_upstream : Upstream :=
  mkUpstream (fun _ _ _ => Ok []) (fun _ _ => Err ApiError)
             (fun _ _ _ => Ok tt) (fun _ _ _ => Ok tt).

Definition sample_world : World := mkWorld sample_store silent_upstream 0 [].

(** An upstream with history: the first request for events is answered with
    two events and a blank one, the second fails, later ones find one event. *)
Definition history_upstream : Upstream :=
  mkUpstream
    (fun n _ _ =>
       match n with
       | O => Ok [mkEvent "e1" 1690000000 false; mkEvent "h7" 1690000500 false;
                  mkEvent "" 0 false]
       | S O => Err ApiError
       | _ => Ok [mkEvent "c1" 1690001000 false]
       end)
    (fun _ _ => Err ApiError) (fun _ _ _ => Ok tt) (fun _ _ _ => Ok tt).

(** An upstream whose bulk calls fail. *)
Definition failing_upstream : Upstream :=
  mkUpstream (fun _ _ _ => Err ApiError) (fun _ _ => Err ApiError)
             (fun _ _ _ => Err ApiError) (fun _ _ _ => Err ApiError).

(** A manager whose cache holds an address storage no longer tracks and
    lacks one it does. *)
Definition stale_manager : webhook.Manager :=
  webhook.mkManager "https://bot.example/webhook" 42
    {[ "0:aaaaaaaaaaaa" := true; "0:dddddddddddd" := true ]}.

(** A push for the address alice and bob both track, with the event inline. *)
Definition fresh_push : WebhookPayload :=
  mkPayload "account_tx" "0:aaaaaaaaaaaa" "" 0 (Some (mkEvent "e9" 1700000000 false)).

(** A push whose body is {"account_id":"0:abc"}, and a pending-message
    notice for the same account. *)
Definition short_push : WebhookPayload := mkPayload "" "0:abc" "" 0 None.

Definition mempool_push : WebhookPayload := mkPayload "mempool_msg" "0:abc" "" 0 None.

Definition post (payload : WebhookPayload) : webhook.Request :=
  webhook.mkRequest "POST" (Some payload).

Definition world_of (o : Outcome World) : World :=
  match o with Done w => w | Panic => sample_world end.

(** ** Vocabulary of the further properties *)

(** The wallets and events handed to the handler, and the ledger writes
    attempted, whatever their outcome. *)
Definition handed (tr : list Effect) : list (Wallet * Event) :=
  omap (fun e => match e with
                 | EDispatch wl ev => Some (wl, ev)
                 | _ => None
                 end) tr.

Definition marks (tr : list Effect) : list (Z * string) :=
  omap (fun e => match e with
                 | EMark wid eid _ => Some (wid, eid)
                 | _ => None
                 end) tr.

(** The event [processTransaction] works on for [payload] in world [w]: the
    inline one, else the one fetched by transaction hash, if its id is not
    empty. *)
Definition resolved (payload : WebhookPayload) (w : World) (ev : Event) : Prop :=
  EventID ev ≠ ""
  ∧ (Event_ payload = Some ev
     ∨ (Event_ payload = None ∧ TxHash payload ≠ ""
        ∧ event_by_hash_at (upstream w) (calls w) (TxHash payload) = Ok ev)).

(** The wallets of the table that track an account. *)
Definition tracking (account : string) (s : Storage) : list Wallet :=
  filter (fun wl => AddressRaw wl = account) (wallets s).

(** Whether [processTransaction] asks the upstream for the event: the wallet
    query succeeded and found a wallet, and the payload carries a transaction
    hash but no event. *)
Definition fetches (payload : WebhookPayload) (w : World) : bool :=
  negb (faults (store w) (stmts (store w)))
  && negb (bool_decide (tracking (AccountID payload) (store w) = []))
  && bool_decide (Event_ payload = None)
  && negb (bool_decide (TxHash payload = "")).


Definition untracked_push : WebhookPayload :=
  mkPayload "account_tx" "0:zzzzzzzzzzzz" "" 0 (Some (mkEvent "e9" 1700000000 false)).

Definition hash_push : WebhookPayload :=
  mkPayload "account_tx" "0:aaaaaaaaaaaa" "5e1f" 0 None.


(** A push that repeats an event alice was already notified of, and one for
    an address that is registered only later. *)
Definition replayed_push : WebhookPayload :=
  mkPayload "account_tx" "0:aaaaaaaaaaaa" "" 0 (Some (mkEvent "e1" 1690000000 false)).

Definition dave_push : WebhookPayload :=
  mkPayload "account_tx" "0:dddddddddddd" "" 0 (Some (mkEvent "d1" 1700000500 false)).

(** Calls on the storage, and a database after a history of them. *)
Inductive Op : Type :=
  | OpAddWallet (userID : Z) (name addressRaw addressDisplay : string) (maxWallets : Z)
  | OpRemoveWallet (userID walletID : Z)
  | OpMarkEventProcessed (walletID : Z) (eventID : string)
  | OpGetWalletsByRaw (addressRaw : string)
  | OpGetAllWallets
  | OpGetWallet (walletID : Z).

Definition exec (s : Storage) (op : Op) : Storage :=
  match op with
  | OpAddWallet u name raw display maxWallets => (AddWallet u name raw display maxWallets s).2
  | OpRemoveWallet u wid => (RemoveWallet u wid s).2
  | OpMarkEventProcessed wid eid => (MarkEventProcessed wid eid s).2
  | OpGetWalletsByRaw raw => (GetWalletsByRaw raw s).2
  | OpGetAllWallets => (GetAllWallets s).2
  | OpGetWallet wid => (GetWallet wid s).2
  end.

Definition history (faults : nat -> bool) (ops : list Op) : Storage :=
  foldl exec (fresh faults) ops.

(** Wallet ids are distinct, positive and at most the AUTOINCREMENT mark. *)
Definition wallet_ids_ok (s : Storage) : Prop :=
  NoDup (ID <$> wallets s) ∧ ∀ w, w ∈ wallets s → 0 < ID w <= wallets_seq s.

(** The world with another database. *)
Definition with_store (st : Storage) (w : World) : World :=
  mkWorld st (upstream w) (calls w) (trace w).

(** The bulk calls among some effects. *)
Definition is_bulk_call (e : Effect) : bool :=
  match e with
  | ESubscribe _ _ | EUnsubscribe _ _ => true
  | _ => false
  end.

Definition bulk_calls (tr : list Effect) : list Effect :=
  filter (fun e => is_bulk_call e = true) tr.

(** Upstreams for [Init]: one that cannot be reached, and one that lists two
    registrations. *)
Definition unreachable_registry : Registrations :=
  mkRegistrations (Err ApiError) (fun _ => Err ApiError).

Definition busy_registry : Registrations :=
  mkRegistrations
    (Ok [mkWebhook 11 "https://other.example/hook" [];
         mkWebhook 42 "https://bot.example/webhook" ["0:aaaaaaaaaaaa"];
         mkWebhook 43 "https://bot.example/webhook" []])
    (fun _ => Ok (mkWebhook 99 "https://bot.example/webhook" [])).

(** A manager whose cache is what storage tracks. *)
Definition settled_manager : webhook.Manager :=
  webhook.mkManager "https://bot.example/webhook" 42
    {[ "0:aaaaaaaaaaaa" := true; "0:cccccccccccc" := true ]}.

(** Callers that arrive at least [d] after one another, the first at least
    [d] after [last]. *)
Fixpoint spaced (d last : Z) (calls : list Call) : Prop :=
  match calls with
  | [] => True
  | k :: calls => last + d <= arrive k ∧ spaced d (arrive k) calls
  end.

(** The number a string of decimal digits denotes. *)
Definition decimal_value (s : string) : Z :=
  foldl (fun v c => v * 10 + (Z.of_nat (Ascii.nat_of_ascii c) - 48)) 0
        (String.list_ascii_of_string s).

Definition is_digit (c : Ascii.ascii) : Prop :=
  (48 <= Ascii.nat_of_ascii c <= 57)%nat.

(** Actions of events on alice's address: a sale of a jetton for 2 TON, a
    swap of one jetton for another, 5 TON coming in, 1 TON going out, and a
    transfer between two other accounts. *)
Definition sell_action : Action :=
  mkAction "JettonSwap" None
    (Some (mkJettonSwap "stonfi" 0 2000000000 "150000" "" None None)).

Definition jetton_swap_action : Action :=
  mkAction "JettonSwap" None
    (Some (mkJettonSwap "dedust" 0 0 "150000" "42" None None)).

Definition incoming_action : Action :=
  mkAction "TonTransfer"
    (Some (mkTonTransfer (mkAccount "0:cccccccccccc") (mkAccount "0:aaaaaaaaaaaa")
                         5000000000 "rent")) None.

Definition outgoing_action : Action :=
  mkAction "TonTransfer"
    (Some (mkTonTransfer (mkAccount "0:aaaaaaaaaaaa") (mkAccount "0:cccccccccccc")
                         1000000000 "")) None.

Definition foreign_action : Action :=
  mkAction "TonTransfer"
    (Some (mkTonTransfer (mkAccount "0:dddddddddddd") (mkAccount "0:cccccccccccc")
                         9000000000 "")) None.

(** In the examples an amount is held as its number of billionths, an exact
    integer standing for [float64]: [NanoToTON] is then the identity, and
    [JettonUnitsToAmount] scales the units of a jetton by its decimals. *)
Definition nano_amount (units : string) (decimals : Z) : Z :=
  decimal_value units * 10 ^ 9 / 10 ^ Z.max 0 decimals.

(** * Properties *)

(** ** The ledger and wallet removal *)

Section Ledger.
Import storage.

Lemma stmt_tables s :
  wallets (stmt s).2 = wallets s ∧ wallets_seq (stmt s).2 = wallets_seq s ∧
  processed_events (stmt s).2 = processed_events s ∧ changes (stmt s).2 = changes s.
Proof. done. Qed.

Lemma RemoveWallet_ok_ledger userID walletID s :
  (RemoveWallet userID walletID s).1 = Ok tt →
  processed_events (RemoveWallet userID walletID s).2
    = processed_events s ∖ filter (fun p : Z * string => p.1 = walletID) (processed_events s)
  ∧ wallets_seq (RemoveWallet userID walletID s).2 = wallets_seq s.
Proof.
  unfold RemoveWallet, stmt; simpl.
  destruct (faults s (stmts s)); [done|]; simpl.
  destruct (faults s (S (stmts s))); [done|]; simpl. done.
Qed.

Lemma AddWallet_ok_fresh userID name raw display maxWallets s :
  is_ok (AddWallet userID name raw display maxWallets s).1 = true →
  ∃ w, (AddWallet userID name raw display maxWallets s).1 = Ok w
       ∧ wallets_seq s < ID w
       ∧ processed_events (AddWallet userID name raw display maxWallets s).2
         = processed_events s.
Proof.
  unfold AddWallet, stmt; simpl.
  destruct (faults s (stmts s)); [done|]; simpl.
  case_match; [done|]; simpl.
  destruct (faults s (S (stmts s))); [done|]; simpl.
  intros _. eexists; split; [done|]. simpl. split; [lia|done].
Qed.

(** C10. A successful RemoveWallet leaves no ledger entry under the removed
    wallet's id and keeps every other wallet's entries; a wallet registered
    afterwards gets an id with no ledger entry at all. *)
Theorem RemoveWallet_clears_ledger (userID walletID : Z) (s : Storage) :
  (RemoveWallet userID walletID s).1 = Ok tt →
  let s1 := (RemoveWallet userID walletID s).2 in
  (∀ eventID, (walletID, eventID) ∉ processed_events s1)
  ∧ (∀ other eventID, other ≠ walletID →
       (other, eventID) ∈ processed_events s1 ↔ (other, eventID) ∈ processed_events s)
  ∧ (ledger_known s →
     ∀ userID' name raw display maxWallets,
       match AddWallet userID' name raw display maxWallets s1 with
       | (Ok w, s2) => ∀ eventID, (ID w, eventID) ∉ processed_events s2
       | (Err _, s2) => processed_events s2 = processed_events s1
       end).
Proof.
  intros Hok s1. destruct (RemoveWallet_ok_ledger _ _ _ Hok) as [Hpe Hseq].
  fold s1 in Hpe, Hseq. split; [|split].
  - intros e. rewrite Hpe. set_solver.
  - intros o e Hne. rewrite Hpe. set_solver.
  - intros Hknown u' name raw display maxW.
    destruct (AddWallet u' name raw display maxW s1) as [r s2] eqn:E.
    destruct r as [w|err].
    + assert (Hok' : is_ok (AddWallet u' name raw display maxW s1).1 = true)
        by (rewrite E; done).
      destruct (AddWallet_ok_fresh _ _ _ _ _ _ Hok') as (w' & Hw & Hlt & Hpe').
      rewrite E in Hw, Hpe'. simpl in Hw, Hpe'. injection Hw as <-.
      intros e Hin. rewrite Hpe', Hpe in Hin.
      apply elem_of_difference in Hin as [Hin _].
      apply Hknown in Hin. simpl in Hin. lia.
    + revert E. unfold AddWallet, stmt; simpl.
      repeat case_match; intros; simplify_eq; done.
Qed.

End Ledger.

Lemma RemoveWallet_clears_ledger_witness :
  let s1 := (RemoveWallet 7 1 sample_store).2 in
  (RemoveWallet 7 1 sample_store).1 = Ok tt
  ∧ (∀ eventID, (1, eventID) ∉ processed_events s1)
  ∧ match AddWallet 7 "alice" "0:aaaaaaaaaaaa" "UQaaaaaaaaaa" 10 s1 with
    | (Ok w, s2) => ID w = 4 ∧ ∀ eventID, (ID w, eventID) ∉ processed_events s2
    | (Err _, _) => False
    end.
Proof.
  intros s1.
  assert (H : (RemoveWallet 7 1 sample_store).1 = Ok tt) by reflexivity.
  destruct (RemoveWallet_clears_ledger 7 1 sample_store H) as (H1 & _ & H3).
  split; [exact H|]. split; [exact H1|].
  assert (Hk : ledger_known sample_store).
  { intros p Hp. unfold sample_store, sample_ledger in Hp. simpl in Hp.
    apply elem_of_union in Hp as [Hp|Hp];
      [apply elem_of_union in Hp as [Hp|Hp]|];
      apply elem_of_singleton in Hp; subst p; vm_compute; discriminate. }
  specialize (H3 Hk 7 "alice" "0:aaaaaaaaaaaa" "UQaaaaaaaaaa" 10).
  fold s1 in H3.
  change (AddWallet 7 "alice" "0:aaaaaaaaaaaa" "UQaaaaaaaaaa" 10 s1)
    with (Ok (mkWallet 4 7 "alice" "0:aaaaaaaaaaaa" "UQaaaaaaaaaa"),
          (AddWallet 7 "alice" "0:aaaaaaaaaaaa" "UQaaaaaaaaaa" 10 s1).2) in *.
  split; [reflexivity|exact H3].
Defined.

(** ** Steps of the pipeline *)

Section Steps.

Lemma MarkEventProcessed_spec walletID eventID s :
  let r := (MarkEventProcessed walletID eventID s).1 in
  let s' := (MarkEventProcessed walletID eventID s).2 in
  faults s' = faults s ∧ wallets s' = wallets s ∧ wallets_seq s' = wallets_seq s
  ∧ processed_events s ⊆ processed_events s'
  ∧ processed_events s' ⊆ {[ (walletID, eventID) ]} ∪ processed_events s
  ∧ (r = Ok true → ((walletID, eventID) ∉ processed_events s)
                   ∧ ((walletID, eventID) ∈ processed_events s'))
  ∧ (r = Ok false → (walletID, eventID) ∈ processed_events s)
  ∧ (faults s (stmts s) = false → (walletID, eventID) ∈ processed_events s').
Proof.
  unfold MarkEventProcessed, insert_or_ignore, stmt; simpl.
  destruct (faults s (stmts s)) eqn:F1; simpl.
  { repeat split; try done. set_solver. }
  destruct (decide ((walletID, eventID) ∈ processed_events s)) as [Hin|Hnin]; simpl;
    destruct (faults s (S (stmts s))) eqn:F2; simpl;
    repeat split; try done; try set_solver.
Qed.

Lemma news_app (l k : list Effect) : news (l ++ k) = news l ++ news k.
Proof. apply omap_app. Qed.

Lemma dispatches_app (l k : list Effect) : dispatches (l ++ k) = dispatches l ++ dispatches k.
Proof. apply omap_app. Qed.

Lemma steps_refl w : steps_to w w [].
Proof.
  split; simpl; try done.
  - by rewrite app_nil_r.
  - constructor.
  - intros p Hp. by apply elem_of_nil in Hp.
Qed.

Lemma steps_trans w1 w2 w3 n1 n2 :
  steps_to w1 w2 n1 → steps_to w2 w3 n2 → steps_to w1 w3 (n1 ++ n2).
Proof.
  intros [T1 U1 F1 G1 N1 R1 D1] [T2 U2 F2 G2 N2 R2 D2]. split.
  - by rewrite T2, T1, app_assoc.
  - congruence.
  - congruence.
  - set_solver.
  - rewrite news_app. apply NoDup_app. split; [done|]. split; [|done].
    intros p Hp Hp'. apply R1 in Hp as [_ Hp]. apply R2 in Hp' as [Hp' _]. done.
  - intros p. rewrite news_app, elem_of_app. intros [Hp|Hp].
    + apply R1 in Hp as [? ?]. set_solver.
    + apply R2 in Hp as [? ?]. set_solver.
  - rewrite news_app, dispatches_app. by apply sublist_app.
Qed.

(** An effect that neither marks nor dispatches. *)
Lemma steps_quiet e st' w :
  news [e] = [] → dispatches [e] = [] → faults st' = faults (store w) →
  processed_events st' = processed_events (store w) →
  ∀ n, steps_to w (emit e (mkWorld st' (upstream w) n (trace w))) [e].
Proof.
  intros Hn Hd Hf Hpe n. split; rewrite ?Hn, ?Hd; simpl; try done.
  - by rewrite Hpe.
  - constructor.
  - intros p Hp. by apply elem_of_nil in Hp.
Qed.

Lemma steps_log lv msg nums w : steps_to w (log lv msg nums w) [ELog lv msg nums].
Proof. destruct w. by apply (steps_quiet (ELog lv msg nums)). Qed.

Lemma steps_mark walletID eventID w :
  steps_to w (markEventProcessed walletID eventID w).2
    [EMark walletID eventID (markEventProcessed walletID eventID w).1].
Proof.
  unfold markEventProcessed.
  pose proof (MarkEventProcessed_spec walletID eventID (store w)) as H.
  destruct (MarkEventProcessed walletID eventID (store w)) as [r st'].
  simpl in *. destruct H as (Hf & _ & _ & Hsub & _ & Hnew & _ & _).
  split; simpl; try done.
  - destruct r as [[|]|]; simpl; repeat constructor. set_solver.
  - destruct r as [[|]|]; simpl; intros p Hp; try by apply elem_of_nil in Hp.
    apply list_elem_of_singleton in Hp as ->. by apply Hnew.
  - destruct r as [[|]|]; simpl; apply sublist_nil_l.
Qed.

End Steps.

(** ** The receiver: at most one dispatch per (wallet, event) *)

Section Receiver.
Import webhook.

Lemma steps_on_store {A} e (op : Storage → A * Storage) w :
  news [e] = [] → dispatches [e] = [] →
  (∀ s, faults (op s).2 = faults s ∧ processed_events (op s).2 = processed_events s) →
  steps_to w (on_store e op w).2 [e].
Proof.
  intros Hn Hd Hop. unfold on_store.
  destruct (Hop (store w)) as [Hf Hpe].
  destruct (op (store w)) as [a st']. simpl in *.
  by apply steps_quiet.
Qed.

Lemma steps_request {A} e (answer : Upstream → nat → A) w :
  news [e] = [] → dispatches [e] = [] → steps_to w (request e answer w).2 [e].
Proof. intros Hn Hd. unfold request; simpl. by apply steps_quiet. Qed.

Lemma GetWalletsByRaw_reads addressRaw s :
  faults (GetWalletsByRaw addressRaw s).2 = faults s
  ∧ processed_events (GetWalletsByRaw addressRaw s).2 = processed_events s.
Proof. unfold GetWalletsByRaw, stmt; simpl. by destruct (faults s (stmts s)). Qed.

Lemma GetAllWallets_reads s :
  faults (GetAllWallets s).2 = faults s
  ∧ processed_events (GetAllWallets s).2 = processed_events s.
Proof. unfold GetAllWallets, stmt; simpl. by destruct (faults s (stmts s)). Qed.

Lemma steps_process_wallet event w wallet :
  ∃ new, steps_to w (process_wallet event w wallet) new.
Proof.
  unfold process_wallet.
  pose proof (steps_mark (ID wallet) (EventID event) w) as H.
  destruct (markEventProcessed (ID wallet) (EventID event) w) as [r w1]. simpl in H.
  destruct r as [[|]|e].
  - exists [EMark (ID wallet) (EventID event) (Ok true); EDispatch wallet event].
    destruct H as [T U F G N R D]. split; simpl; try done.
    rewrite T. by rewrite <- app_assoc.
  - eexists. eapply steps_trans; [exact H|apply steps_log].
  - eexists. eapply steps_trans; [exact H|apply steps_log].
Qed.

Lemma steps_process_wallets event wallets :
  ∀ w, ∃ new, steps_to w (foldl (process_wallet event) w wallets) new.
Proof.
  induction wallets as [|wl wallets IH]; intros w; simpl.
  - eexists. apply steps_refl.
  - destruct (steps_process_wallet event w wl) as [n1 H1].
    destruct (IH (process_wallet event w wl)) as [n2 H2].
    eexists. eapply steps_trans; eassumption.
Qed.

Lemma steps_process_event wallets event w :
  ∃ new, steps_to w (process_event wallets event w) new.
Proof.
  unfold process_event. case_bool_decide.
  - eexists. apply steps_log.
  - destruct (steps_process_wallets event wallets
                (log LInfo "processing event" [Z.of_nat (length wallets)] w)) as [n H'].
    eexists. eapply steps_trans; [apply steps_log|exact H'].
Qed.

Lemma steps_processTransaction payload w w' :
  processTransaction payload w = Done w' → ∃ new, steps_to w w' new.
Proof.
  unfold processTransaction.
  pose proof (steps_on_store (EGetWalletsByRaw (AccountID payload))
                (GetWalletsByRaw (AccountID payload)) w eq_refl eq_refl
                (GetWalletsByRaw_reads (AccountID payload))) as H0.
  destruct (on_store _ _ w) as [r w0]. simpl in H0.
  destruct r as [wallets|e].
  2:{ intros [= <-]. eexists. eapply steps_trans; [exact H0|apply steps_log]. }
  destruct (length wallets =? 0)%nat.
  { destruct (slice_to (AccountID payload) 10); [|done].
    intros [= <-]. eexists. eapply steps_trans; [exact H0|apply steps_log]. }
  destruct (Event_ payload) as [event|].
  { intros [= <-]. destruct (steps_process_event wallets event w0) as [n H'].
    eexists. eapply steps_trans; eassumption. }
  destruct (negb (bool_decide (TxHash payload = ""))).
  2:{ intros [= <-]. eexists. eapply steps_trans; [exact H0|apply steps_log]. }
  pose proof (steps_request (EGetEventByHash (TxHash payload))
                (fun u n => event_by_hash_at u n (TxHash payload)) w0 eq_refl eq_refl) as H1.
  unfold GetEventByHash. destruct (request _ _ w0) as [r w1]. simpl in H1.
  destruct r as [event|e]; intros [= <-].
  - destruct (steps_process_event wallets event w1) as [n H'].
    eexists. eapply steps_trans; [exact H0|]. eapply steps_trans; eassumption.
  - eexists. eapply steps_trans; [exact H0|]. eapply steps_trans; [exact H1|apply steps_log].
Qed.




End Receiver.


(** ** The subscription manager *)

Section Sync.
Import webhook.

Lemma elem_of_keys (m : gmap string bool) k : k ∈ keys m ↔ k ∈ dom m.
Proof.
  unfold keys. rewrite list_elem_of_fmap, elem_of_dom. split.
  - intros [[k' v] [Hk H]]. simpl in Hk. subst k'. apply elem_of_map_to_list in H. by exists v.
  - intros [v H]. exists (k, v). split; [done|]. by apply elem_of_map_to_list.
Qed.

Lemma build_needed_lookup wallets k :
  build_needed wallets !! k
    = if decide (k ∈ AddressRaw <$> wallets) then Some true else None.
Proof.
  unfold build_needed.
  assert (G : ∀ acc : gmap string bool,
    foldl (fun needed w => <[AddressRaw w := true]> needed) acc wallets !! k
      = if decide (k ∈ AddressRaw <$> wallets) then Some true else acc !! k).
  { induction wallets as [|wl wallets IH]; intros acc.
    - rewrite fmap_nil, decide_False by apply not_elem_of_nil. done.
    - rewrite fmap_cons. cbn [foldl]. rewrite IH.
      destruct (decide (k ∈ AddressRaw <$> wallets)) as [Hin|Hnin].
      + rewrite decide_True by (by apply list_elem_of_further). done.
      + destruct (decide (AddressRaw wl = k)) as [<-|Hne].
        * rewrite decide_True by apply list_elem_of_here. by rewrite lookup_insert_eq.
        * rewrite decide_False, lookup_insert_ne; [done|done|].
          intros [?|?]%elem_of_cons; congruence. }
  rewrite G. by rewrite lookup_empty.
Qed.

Lemma dom_build_needed wallets :
  dom (build_needed wallets) = list_to_set (AddressRaw <$> wallets).
Proof.
  apply set_eq. intros k. rewrite elem_of_dom, build_needed_lookup, elem_of_list_to_set.
  case_decide; split; try done.
Qed.

Lemma index_needed wallets k :
  index (build_needed wallets) k = false ↔ k ∉ dom (build_needed wallets).
Proof.
  unfold index. rewrite dom_build_needed, build_needed_lookup, elem_of_list_to_set.
  by case_decide.
Qed.

Lemma index_cache m k : cache_ok m → index (subscribed m) k = false ↔ k ∉ dom (subscribed m).
Proof.
  intros Hok. unfold index. rewrite elem_of_dom.
  destruct (subscribed m !! k) as [v|] eqn:E; simpl.
  - rewrite (Hok _ _ E). split; [done|]. intros []. by eexists.
  - split; [|done]. intros _ [? ?]. done.
Qed.

Lemma toAdd_set m wallets :
  cache_ok m →
  list_to_set (find_toAdd (build_needed wallets) (subscribed m))
    = (list_to_set (AddressRaw <$> wallets) : gset string) ∖ dom (subscribed m).
Proof.
  intros Hok. apply set_eq. intros k. unfold find_toAdd.
  rewrite elem_of_list_to_set, list_elem_of_filter, elem_of_keys, elem_of_difference.
  rewrite index_cache by done. rewrite dom_build_needed. tauto.
Qed.

Lemma toRemove_set m wallets :
  list_to_set (find_toRemove (build_needed wallets) (subscribed m))
    = dom (subscribed m) ∖ (list_to_set (AddressRaw <$> wallets) : gset string).
Proof.
  apply set_eq. intros k. unfold find_toRemove.
  rewrite elem_of_list_to_set, list_elem_of_filter, elem_of_keys, elem_of_difference.
  rewrite index_needed, dom_build_needed. tauto.
Qed.

Lemma insert_all_spec (l : list string) :
  ∀ sub : gmap string bool,
    dom (foldl (fun sub addr => <[addr := true]> sub) sub l) = dom sub ∪ list_to_set l
    ∧ ((∀ k v, sub !! k = Some v → v = true) →
       ∀ k v, foldl (fun sub addr => <[addr := true]> sub) sub l !! k = Some v → v = true).
Proof.
  induction l as [|a l IH]; intros sub; simpl.
  - split; [set_solver|done].
  - destruct (IH (<[a := true]> sub)) as [Hd Hv]. split.
    + rewrite Hd, dom_insert_L. set_solver.
    + intros Hsub. apply Hv. intros k v.
      destruct (decide (a = k)) as [<-|Hne].
      * rewrite lookup_insert_eq. congruence.
      * rewrite lookup_insert_ne by done. apply Hsub.
Qed.

Lemma delete_all_spec (l : list string) :
  ∀ sub : gmap string bool,
    dom (foldl (fun sub addr => delete addr sub) sub l) = dom sub ∖ list_to_set l
    ∧ ∀ k v, foldl (fun sub addr => delete addr sub) sub l !! k = Some v → sub !! k = Some v.
Proof.
  induction l as [|a l IH]; intros sub; simpl.
  - split; [set_solver|done].
  - destruct (IH (delete a sub)) as [Hd Hv]. split.
    + rewrite Hd, dom_delete_L. set_solver.
    + intros k v H. apply Hv in H. by apply lookup_delete_Some in H as [_ H].
Qed.

Lemma nonempty_length {A} (l : list A) : (0 <? length l)%nat = true ↔ l ≠ [].
Proof. destruct l; simpl; split; done. Qed.

Lemma sync_add_spec toAdd m w :
  let r := sync_add toAdd (m, w) in
  webhookID r.1 = webhookID m ∧ upstream r.2 = upstream w ∧ store r.2 = store w
  ∧ calls r.2 = (if (0 <? length toAdd)%nat then S (calls w) else calls w)
  ∧ (∀ e, e ∈ trace w → e ∈ trace r.2)
  ∧ (toAdd ≠ [] → ESubscribe (webhookID m) toAdd ∈ trace r.2)
  ∧ (is_ok (subscribe_at (upstream w) (calls w) (webhookID m) toAdd) = true →
     subscribed r.1 = foldl (fun sub addr => <[addr := true]> sub) (subscribed m) toAdd)
  ∧ (is_ok (subscribe_at (upstream w) (calls w) (webhookID m) toAdd) = false →
     subscribed r.1 = subscribed m).
Proof.
  unfold sync_add, SubscribeAccounts, request, log, emit; simpl.
  destruct toAdd as [|a l]; simpl.
  { repeat split; try done. }
  destruct (subscribe_at (upstream w) (calls w) (webhookID m) (a :: l)); simpl;
    repeat split; try done; intros; set_solver.
Qed.

Lemma sync_remove_spec toRemove m w :
  let r := sync_remove toRemove (m, w) in
  webhookID r.1 = webhookID m ∧ upstream r.2 = upstream w ∧ store r.2 = store w
  ∧ (∀ e, e ∈ trace w → e ∈ trace r.2)
  ∧ (toRemove ≠ [] → EUnsubscribe (webhookID m) toRemove ∈ trace r.2)
  ∧ (is_ok (unsubscribe_at (upstream w) (calls w) (webhookID m) toRemove) = true →
     subscribed r.1 = foldl (fun sub addr => delete addr sub) (subscribed m) toRemove)
  ∧ (is_ok (unsubscribe_at (upstream w) (calls w) (webhookID m) toRemove) = false →
     subscribed r.1 = subscribed m).
Proof.
  unfold sync_remove, UnsubscribeAccounts, request, log, emit; simpl.
  destruct toRemove as [|a l]; simpl.
  { repeat split; try done. }
  destruct (unsubscribe_at (upstream w) (calls w) (webhookID m) (a :: l)); simpl;
    repeat split; try done; intros; set_solver.
Qed.

(** [sync] on an initialised manager whose wallet query succeeds. *)
Lemma sync_unfold m w :
  webhookID m ≠ 0 → faults (store w) (stmts (store w)) = false →
  ∃ w0, upstream w0 = upstream w ∧ calls w0 = calls w
        ∧ trace w0 = trace w ++ [EGetAllWallets]
        ∧ sync m w
          = (Ok tt,
             sync_remove (find_toRemove (build_needed (wallets (store w))) (subscribed m))
               (sync_add (find_toAdd (build_needed (wallets (store w))) (subscribed m))
                  (m, w0))).
Proof.
  intros Hid Hf. unfold sync, on_store, GetAllWallets, stmt.
  apply Z.eqb_neq in Hid. rewrite Hid. simpl. rewrite Hf. simpl.
  exists (emit EGetAllWallets (mkWorld (stmt (store w)).2 (upstream w) (calls w) (trace w))).
  repeat split; reflexivity.
Qed.

(** The cache invariant holds of a new manager and across every tick,
    whatever the database and the upstream do. *)
Lemma NewManager_cache_ok endpoint : cache_ok (NewManager endpoint).
Proof. apply map_Forall_empty. Qed.

Lemma sync_add_cache_ok toAdd m w : cache_ok m → cache_ok (sync_add toAdd (m, w)).1.
Proof.
  intros Hok. destruct (sync_add_spec toAdd m w) as (_ & _ & _ & _ & _ & _ & Hyes & Hno).
  destruct (is_ok (subscribe_at (upstream w) (calls w) (webhookID m) toAdd)).
  - intros k v H. rewrite (Hyes eq_refl) in H.
    by apply (proj2 (insert_all_spec toAdd (subscribed m)) Hok) in H.
  - intros k v H. rewrite (Hno eq_refl) in H. by apply Hok in H.
Qed.

Lemma sync_remove_cache_ok toRemove m w :
  cache_ok m → cache_ok (sync_remove toRemove (m, w)).1.
Proof.
  intros Hok. destruct (sync_remove_spec toRemove m w) as (_ & _ & _ & _ & _ & Hyes & Hno).
  destruct (is_ok (unsubscribe_at (upstream w) (calls w) (webhookID m) toRemove)).
  - intros k v H. rewrite (Hyes eq_refl) in H.
    apply (proj2 (delete_all_spec toRemove (subscribed m))) in H. by apply Hok in H.
  - intros k v H. rewrite (Hno eq_refl) in H. by apply Hok in H.
Qed.

Lemma sync_cache_ok m w : cache_ok m → cache_ok (sync m w).2.1.
Proof.
  intros Hok. unfold sync. destruct (webhookID m =? 0); [done|].
  destruct (on_store EGetAllWallets GetAllWallets w) as [[wallets|e] w0]; [|done].
  cbn [fst snd].
  pose proof (sync_add_cache_ok
                (find_toAdd (build_needed wallets) (subscribed m)) m w0 Hok) as H1.
  destruct (sync_add _ (m, w0)) as [m1 w1]. by apply sync_remove_cache_ok.
Qed.

(** C5. A tick of an initialised manager that reads the wallets computes
    toAdd = needed − subscribed and toRemove = subscribed − needed and hands
    exactly these to the bulk calls; on the first tick (empty cache) toAdd is
    everything needed and toRemove is empty; and when the bulk calls succeed
    the cache afterwards holds exactly the raw addresses of the wallets in
    storage. *)
Theorem sync_reconciles (m : Manager) (w : World) :
  webhookID m ≠ 0 → cache_ok m → faults (store w) (stmts (store w)) = false →
  let needed : gset string := list_to_set (AddressRaw <$> wallets (store w)) in
  let toAdd := find_toAdd (build_needed (wallets (store w))) (subscribed m) in
  let toRemove := find_toRemove (build_needed (wallets (store w))) (subscribed m) in
  let m' := (sync m w).2.1 in
  let w' := (sync m w).2.2 in
  (sync m w).1 = Ok tt
  ∧ list_to_set toAdd = needed ∖ dom (subscribed m)
  ∧ list_to_set toRemove = dom (subscribed m) ∖ needed
  ∧ (toAdd ≠ [] → ESubscribe (webhookID m) toAdd ∈ trace w')
  ∧ (toRemove ≠ [] → EUnsubscribe (webhookID m) toRemove ∈ trace w')
  ∧ (subscribed m = ∅ → list_to_set toAdd = needed ∧ toRemove = [])
  ∧ ((∀ n accounts, subscribe_at (upstream w) n (webhookID m) accounts = Ok tt) →
     (∀ n accounts, unsubscribe_at (upstream w) n (webhookID m) accounts = Ok tt) →
     dom (subscribed m') = needed ∧ cache_ok m').
Proof.
  intros Hid Hok Hf needed toAdd toRemove m' w'.
  destruct (sync_unfold m w Hid Hf) as (w0 & Hu & Hc & Ht & E).
  subst m' w'. rewrite E. cbn [fst snd]. fold toAdd toRemove.
  pose proof (toAdd_set m (wallets (store w)) Hok) as HA. fold toAdd needed in HA.
  pose proof (toRemove_set m (wallets (store w))) as HR. fold toRemove needed in HR.
  pose proof (sync_add_spec toAdd m w0) as A.
  destruct (sync_add toAdd (m, w0)) as [m1 w1]. cbn [fst snd] in A.
  destruct A as (Aid & Aup & _ & _ & Atr & Acall & Aok & _).
  pose proof (sync_remove_spec toRemove m1 w1) as R.
  destruct (sync_remove toRemove (m1, w1)) as [m2 w2]. cbn [fst snd] in R.
  destruct R as (Rid & Rup & _ & Rtr & Rcall & Rok & _). cbn [fst snd].
  split; [done|]. split; [done|]. split; [done|].
  split; [intros H; apply Rtr, Acall, H|].
  split; [intros H; rewrite <- Aid; apply Rcall, H|].
  split.
  { intros Hempty. split.
    - rewrite HA, Hempty, dom_empty_L. set_solver.
    - unfold toRemove, find_toRemove, keys. by rewrite Hempty, map_to_list_empty. }
  intros Hsub Hunsub.
  assert (S1 : subscribed m1
               = foldl (fun sub addr => <[addr := true]> sub) (subscribed m) toAdd)
    by (apply Aok; by rewrite Hu, Hsub).
  assert (S2 : subscribed m2
               = foldl (fun sub addr => delete addr sub) (subscribed m1) toRemove)
    by (apply Rok; by rewrite Aup, Hu, Aid, Hunsub).
  destruct (insert_all_spec toAdd (subscribed m)) as [Di Vi].
  destruct (delete_all_spec toRemove (subscribed m1)) as [Dd Vd].
  split.
  - rewrite S2, Dd, S1, Di, HA, HR. apply set_eq. intros k.
    destruct (decide (k ∈ needed)), (decide (k ∈ dom (subscribed m))); set_solver.
  - intros k v H. rewrite S2 in H. apply Vd in H. rewrite S1 in H.
    by apply (Vi Hok) in H.
Qed.

(** C6. When the bulk-subscribe call of a tick fails nothing is added to
    the cache, so each address of toAdd is still missing from it and is in
    toAdd again on the next tick as long as storage still tracks it; when
    the bulk-unsubscribe call fails nothing is removed from the cache; when
    both fail the cache is the one the tick started with. *)
Theorem failed_bulk_call_keeps_cache (m : Manager) (w : World) :
  webhookID m ≠ 0 → cache_ok m → faults (store w) (stmts (store w)) = false →
  let toAdd := find_toAdd (build_needed (wallets (store w))) (subscribed m) in
  let toRemove := find_toRemove (build_needed (wallets (store w))) (subscribed m) in
  let m' := (sync m w).2.1 in
  let subscribe_failed :=
    is_ok (subscribe_at (upstream w) (calls w) (webhookID m) toAdd) = false in
  let unsubscribe_failed :=
    is_ok (unsubscribe_at (upstream w)
             (if (0 <? length toAdd)%nat then S (calls w) else calls w)
             (webhookID m) toRemove) = false in
  (subscribe_failed →
     dom (subscribed m') ⊆ dom (subscribed m)
     ∧ ∀ addr, addr ∈ toAdd →
         (addr ∉ dom (subscribed m'))
         ∧ ∀ wallets', addr ∈ AddressRaw <$> wallets' →
             addr ∈ find_toAdd (build_needed wallets') (subscribed m'))
  ∧ (unsubscribe_failed → dom (subscribed m) ⊆ dom (subscribed m'))
  ∧ (subscribe_failed → unsubscribe_failed → subscribed m' = subscribed m).
Proof.
  intros Hid Hok Hf toAdd toRemove m' subscribe_failed unsubscribe_failed.
  destruct (sync_unfold m w Hid Hf) as (w0 & Hu & Hc & Ht & E).
  subst m' subscribe_failed unsubscribe_failed.
  rewrite E. cbn [fst snd]. fold toAdd toRemove.
  pose proof (toAdd_set m (wallets (store w)) Hok) as HA. fold toAdd in HA.
  pose proof (sync_add_spec toAdd m w0) as A.
  destruct (sync_add toAdd (m, w0)) as [m1 w1]. cbn [fst snd] in A.
  destruct A as (Aid & Aup & _ & Acalls & _ & _ & Aok & Afail).
  pose proof (sync_remove_spec toRemove m1 w1) as R.
  destruct (sync_remove toRemove (m1, w1)) as [m2 w2]. cbn [fst snd] in R.
  destruct R as (Rid & Rup & _ & _ & _ & Rok & Rfail). cbn [fst snd].
  rewrite Aup, Hu, Acalls, Hc, Aid in Rok, Rfail. rewrite Hu, Hc in Aok, Afail.
  destruct (delete_all_spec toRemove (subscribed m1)) as [Dd _].
  destruct (insert_all_spec toAdd (subscribed m)) as [Di _].
  assert (Hle : subscribed m1 = subscribed m → dom (subscribed m2) ⊆ dom (subscribed m)).
  { intros S1.
    destruct (is_ok (unsubscribe_at (upstream w)
                (if (0 <? length toAdd)%nat then S (calls w) else calls w)
                (webhookID m) toRemove)) eqn:U.
    - rewrite (Rok eq_refl), Dd, S1. set_solver.
    - by rewrite (Rfail eq_refl), S1. }
  split; [|split].
  - intros Hfail. specialize (Hle (Afail Hfail)). split; [done|].
    intros addr Hin.
    assert (Hnot : addr ∉ dom (subscribed m2)).
    { intros Hd. apply Hle in Hd.
      assert (addr ∈ (list_to_set toAdd : gset string)) as Hs
        by (by apply elem_of_list_to_set).
      rewrite HA in Hs. set_solver. }
    split; [done|]. intros wallets' Htracked.
    unfold find_toAdd. apply list_elem_of_filter. split.
    + unfold index. apply not_elem_of_dom in Hnot. by rewrite Hnot.
    + apply elem_of_keys. rewrite dom_build_needed. by apply elem_of_list_to_set.
  - intros Hfail. rewrite (Rfail Hfail).
    destruct (is_ok (subscribe_at (upstream w) (calls w) (webhookID m) toAdd)) eqn:S.
    + rewrite (Aok eq_refl), Di. set_solver.
    + by rewrite (Afail eq_refl).
  - intros HfailA HfailR. by rewrite (Rfail HfailR), (Afail HfailA).
Qed.

End Sync.

Lemma sync_reconciles_witness :
  dom (webhook.subscribed (webhook.sync stale_manager sample_world).2.1)
    = list_to_set (AddressRaw <$> wallets sample_store)
  ∧ elements (dom (webhook.subscribed (webhook.sync stale_manager sample_world).2.1))
    = ["0:cccccccccccc"; "0:aaaaaaaaaaaa"].
Proof.
  split; [|vm_compute; reflexivity].
  assert (H1 : webhook.webhookID stale_manager ≠ 0) by (vm_compute; discriminate).
  assert (H2 : webhook.cache_ok stale_manager)
    by (apply (bool_decide_unpack _); vm_compute; exact I).
  assert (H3 : faults (store sample_world) (stmts (store sample_world)) = false)
    by reflexivity.
  pose proof (sync_reconciles stale_manager sample_world H1 H2 H3) as H.
  cbv zeta in H. destruct H as (_ & _ & _ & _ & _ & _ & H).
  apply H; intros; reflexivity.
Defined.

Lemma failed_bulk_call_keeps_cache_witness :
  let w := mkWorld sample_store failing_upstream 0 [] in
  webhook.subscribed (webhook.sync stale_manager w).2.1 = webhook.subscribed stale_manager.
Proof.
  intros w.
  assert (H1 : webhook.webhookID stale_manager ≠ 0) by (vm_compute; discriminate).
  assert (H2 : webhook.cache_ok stale_manager)
    by (apply (bool_decide_unpack _); vm_compute; exact I).
  assert (H3 : faults (store w) (stmts (store w)) = false) by reflexivity.
  pose proof (failed_bulk_call_keeps_cache stale_manager w H1 H2 H3) as H.
  cbv zeta in H. destruct H as (_ & _ & H).
  apply H; reflexivity.
Defined.

(** ** The handler: statuses, filtering, and the short account id *)

Section Handler.
Import webhook.

(** The statuses [handleWebhook] writes when it returns. *)
Lemma handleWebhook_statuses (r : Request) (resp : Response) :
  handleWebhook r = Done resp →
  (Method r ≠ "POST" → Status resp = StatusMethodNotAllowed)
  ∧ (Method r = "POST" → Body r = None → Status resp = StatusBadRequest)
  ∧ (Method r = "POST" → is_Some (Body r) → Status resp = StatusOK).
Proof.
  unfold handleWebhook. case_bool_decide as Hm; simpl.
  - destruct (Body r) as [payload|]; [|intros [= <-]; repeat split; try done; by intros _ []].
    destruct (_ || _); [intros [= <-]; by repeat split|].
    destruct (bool_decide _); [intros [= <-]; by repeat split|].
    destruct (slice_to _ _); [|done]. intros [= <-]; by repeat split.
  - intros [= <-]. by repeat split.
Qed.

(** A decodable POST is answered whenever its account id is empty, filtered
    away with its event type, or at least ten bytes long. *)
Lemma handleWebhook_returns (payload : WebhookPayload) :
  EventType payload = "mempool_msg" ∨ EventType payload = "new_contract"
  ∨ AccountID payload = "" ∨ (10 <= String.length (AccountID payload))%nat →
  ∃ resp, handleWebhook (post payload) = Done resp ∧ Status resp = StatusOK.
Proof.
  intros H. unfold handleWebhook, post; simpl.
  repeat case_bool_decide; simpl; try (eexists; split; [reflexivity|done]).
  unfold slice_to. destruct H as [?|[?|[?|H]]]; try done.
  apply Nat.leb_le in H. rewrite H. eexists; split; [reflexivity|done].
Qed.

(** C8. A payload whose event type is mempool_msg or new_contract, or whose
    account id is empty, is answered by the handler alone: nothing is handed
    to processTransaction, and a delivery leaves the database (its statement
    count included), the upstream call count and the handler untouched; only
    log lines are added. *)
Theorem filtered_payload_never_processed (method : string) (payload : WebhookPayload)
    (w : World) :
  EventType payload = "mempool_msg" ∨ EventType payload = "new_contract"
  ∨ AccountID payload = "" →
  ∃ resp,
    handleWebhook (mkRequest method (Some payload)) = Done resp
    ∧ Spawned resp = None
    ∧ (method = "POST" → Status resp = StatusOK)
    ∧ Forall (fun e => touches_pipeline e = false) (Logged resp)
    ∧ deliver (mkRequest method (Some payload)) w
      = (Some (Status resp),
         Done (mkWorld (store w) (upstream w) (calls w) (trace w ++ Logged resp))).
Proof.
  intros H. unfold deliver, handleWebhook; simpl.
  case_bool_decide as Hm; simpl.
  2:{ eexists. repeat split; try done; by repeat constructor. }
  destruct (bool_decide (EventType payload = "mempool_msg")
            || bool_decide (EventType payload = "new_contract")) eqn:Hf; simpl.
  { eexists. repeat split; try done; by repeat constructor. }
  apply orb_false_iff in Hf as [H1 H2].
  apply bool_decide_eq_false in H1, H2.
  destruct H as [?|[?|H]]; try done.
  rewrite bool_decide_eq_true_2 by done. simpl.
  eexists. repeat split; try done; by repeat constructor.
Qed.

(** C2, at the failing input. A POST whose body decodes to an account id of
    five bytes gets no status: the handler panics at [AccountID[:10]] before
    any [WriteHeader]. *)
Theorem short_account_id_gets_no_status :
  handleWebhook (post short_push) = Panic
  ∧ (deliver (post short_push) sample_world).1 = None.
Proof. split; reflexivity. Qed.

(** C3, at the failing input. For a payload with an account id of five
    bytes that no wallet tracks, both the handler and processTransaction
    panic at [AccountID[:10]]. *)
Theorem short_account_id_panics :
  slice_to (AccountID short_push) 10 = Panic
  ∧ handleWebhook (post short_push) = Panic
  ∧ processTransaction short_push sample_world = Panic.
Proof. repeat split; reflexivity. Qed.

End Handler.

Lemma filtered_payload_never_processed_witness :
  ∃ resp, webhook.handleWebhook (post mempool_push) = Done resp
          ∧ webhook.Spawned resp = None ∧ webhook.Status resp = 200.
Proof.
  destruct (filtered_payload_never_processed "POST" mempool_push sample_world)
    as (resp & H1 & H2 & H3 & _); [left; reflexivity|].
  exists resp. split; [exact H1|]. split; [exact H2|exact (H3 eq_refl)].
Defined.

(** ** The backfill seeder *)

Section Seeder.
Import main.

Lemma seeds_refl w : seeds_to w w 0.
Proof. exists []. split; [apply steps_refl|]. split; [done|lia]. Qed.

Lemma seeds_trans w1 w2 w3 j k :
  seeds_to w1 w2 j → seeds_to w2 w3 k → seeds_to w1 w3 (j + k).
Proof.
  intros (n1 & S1 & D1 & C1) (n2 & S2 & D2 & C2). exists (n1 ++ n2).
  split; [by eapply steps_trans|]. split; [by rewrite dispatches_app, D1, D2|lia].
Qed.

Lemma seeds_trace w w' k e : seeds_to w w' k → e ∈ trace w → e ∈ trace w'.
Proof. intros (n & S & _) H. rewrite (st_trace _ _ _ S). set_solver. Qed.

Lemma seeds_ledger w w' k p :
  seeds_to w w' k → p ∈ processed_events (store w) → p ∈ processed_events (store w').
Proof. intros (n & S & _) H. by apply (st_grow _ _ _ S). Qed.

Lemma seeds_mark walletID eventID w :
  seeds_to w (markEventProcessed walletID eventID w).2 0.
Proof.
  eexists. split; [apply steps_mark|]. split.
  - by destruct (markEventProcessed walletID eventID w).1 as [[|]|].
  - unfold markEventProcessed. destruct (MarkEventProcessed _ _ _). simpl. lia.
Qed.

Lemma seeds_log lv msg nums w : seeds_to w (log lv msg nums w) 0.
Proof. eexists. split; [apply steps_log|]. split; [done|simpl; lia]. Qed.

Lemma seeds_GetEvents address limit w : seeds_to w (GetEvents address limit w).2 1.
Proof.
  eexists. split; [by apply steps_request|]. split; [done|simpl; lia].
Qed.

Lemma mark_attempt walletID eventID w :
  let r := markEventProcessed walletID eventID w in
  EMark walletID eventID r.1 ∈ trace r.2
  ∧ (faults (store w) (stmts (store w)) = false →
     (walletID, eventID) ∈ processed_events (store r.2)).
Proof.
  unfold markEventProcessed.
  pose proof (MarkEventProcessed_spec walletID eventID (store w)) as H.
  destruct (MarkEventProcessed walletID eventID (store w)) as [r st']. simpl in *.
  split; [set_solver|]. by destruct H as (_ & _ & _ & _ & _ & _ & _ & Hin).
Qed.

Lemma seed_event_seeds wl w total ev : seeds_to w (seed_event wl (w, total) ev).1 0.
Proof.
  unfold seed_event. case_bool_decide; simpl; [apply seeds_refl|].
  pose proof (seeds_mark (ID wl) (EventID ev) w) as Hm.
  destruct (markEventProcessed (ID wl) (EventID ev) w) as [[[|]|] w1]; exact Hm.
Qed.

Lemma seed_events_seeds wl events :
  ∀ w total, seeds_to w (foldl (seed_event wl) (w, total) events).1 0.
Proof.
  induction events as [|ev events IH]; intros w total; cbn [foldl]; [apply seeds_refl|].
  pose proof (seed_event_seeds wl w total ev) as H.
  destruct (seed_event wl (w, total) ev) as [w1 t1].
  apply (seeds_trans _ _ _ 0 0 H), IH.
Qed.

Lemma seed_events_marks wl events :
  ∀ w total ev, ev ∈ events → EventID ev ≠ "" →
    let w' := (foldl (seed_event wl) (w, total) events).1 in
    (∃ r, EMark (ID wl) (EventID ev) r ∈ trace w')
    ∧ ((∀ n, faults (store w) n = false) →
       (ID wl, EventID ev) ∈ processed_events (store w')).
Proof.
  induction events as [|ev0 events IH]; intros w total ev Hin Hid; cbn [foldl].
  { by apply elem_of_nil in Hin. }
  pose proof (seed_event_seeds wl w total ev0) as H0.
  apply elem_of_cons in Hin as [->|Hin].
  - pose proof (seed_events_seeds wl events (seed_event wl (w, total) ev0).1
                  (seed_event wl (w, total) ev0).2) as Hrest.
    rewrite <- surjective_pairing in Hrest.
    assert (Hnow : (∃ r, EMark (ID wl) (EventID ev0) r
                           ∈ trace (seed_event wl (w, total) ev0).1)
                   ∧ (faults (store w) (stmts (store w)) = false →
                      (ID wl, EventID ev0)
                        ∈ processed_events (store (seed_event wl (w, total) ev0).1))).
    { unfold seed_event. rewrite bool_decide_eq_false_2 by done. cbn [negb].
      pose proof (mark_attempt (ID wl) (EventID ev0) w) as Hm. cbv zeta in Hm.
      destruct (markEventProcessed (ID wl) (EventID ev0) w) as [[[|]|] w1];
        simpl in *; (split; [eexists; apply Hm|apply Hm]). }
    destruct Hnow as [[r Hr] Hl]. split.
    + exists r. by eapply seeds_trace.
    + intros Hf. eapply seeds_ledger; [exact Hrest|]. apply Hl, Hf.
  - destruct (seed_event wl (w, total) ev0) as [w1 t1] eqn:E.
    destruct (IH w1 t1 ev Hin Hid) as [Ha Hl]. split; [exact Ha|].
    intros Hf. apply Hl. intros n.
    destruct H0 as (new & S & _). simpl in S.
    rewrite (st_faults _ _ _ S). apply Hf.
Qed.

Lemma seeded_mono u P n wl w w' k : seeds_to w w' k → seeded u P n wl w → seeded u P n wl w'.
Proof.
  intros Hs (H1 & H2 & H3). split; [by eapply seeds_trace|]. split.
  - intros Hf. eapply seeds_trace; [exact Hs|]. by apply H2.
  - intros evs ev He Hin Hid. destruct (H3 evs ev He Hin Hid) as [[r Hr] Hl]. split.
    + exists r. by eapply seeds_trace.
    + intros HP. eapply seeds_ledger; [exact Hs|]. by apply Hl.
Qed.

Lemma seed_wallet_spec w total wl :
  let w' := (seed_wallet (w, total) wl).1 in
  seeds_to w w' 1
  ∧ seeded (upstream w) (∀ n, faults (store w) n = false) (calls w) wl w'.
Proof.
  unfold seed_wallet.
  pose proof (seeds_GetEvents (AddressRaw wl) 5 w) as HG.
  unfold GetEvents, request in *. cbn [fst snd] in HG.
  set (w1 := emit (EGetEvents (AddressRaw wl) 5)
               (mkWorld (store w) (upstream w) (S (calls w)) (trace w))) in *.
  assert (Hin1 : EGetEvents (AddressRaw wl) 5 ∈ trace w1) by (simpl; set_solver).
  unfold seeded.
  destruct (events_at (upstream w) (calls w) (AddressRaw wl) 5) as [evs|e] eqn:E.
  - pose proof (seed_events_seeds wl evs w1 total) as Hrest.
    split; [apply (seeds_trans _ _ _ 1 0 HG Hrest)|].
    split; [by eapply seeds_trace|]. split; [done|].
    intros evs' ev [= <-] Hin Hid.
    apply (seed_events_marks wl evs w1 total ev Hin Hid).
  - cbn [fst]. split; [apply (seeds_trans _ _ _ 1 0 HG), seeds_log|].
    split; [simpl; set_solver|]. split; [intros _; simpl; set_solver|done].
Qed.

Lemma seed_wallets_spec wallets :
  ∀ w total,
    let w' := (foldl seed_wallet (w, total) wallets).1 in
    seeds_to w w' (length wallets)
    ∧ ∀ i wl, wallets !! i = Some wl →
        seeded (upstream w) (∀ n, faults (store w) n = false) (calls w + i) wl w'.
Proof.
  induction wallets as [|wl0 wallets IH]; intros w total; cbn [foldl length].
  { split; [apply seeds_refl|]. intros i wl H. by rewrite lookup_nil in H. }
  destruct (seed_wallet_spec w total wl0) as [H0 S0].
  destruct (seed_wallet (w, total) wl0) as [w1 t1]. cbn [fst] in H0, S0.
  destruct (IH w1 t1) as [Hrest Srest]. cbv zeta in Hrest, Srest.
  split; [apply (seeds_trans _ _ _ 1 _ H0 Hrest)|].
  intros [|i] wl Hl; simpl in Hl.
  - injection Hl as <-. rewrite Nat.add_0_r. by eapply seeded_mono.
  - specialize (Srest i wl Hl).
    destruct H0 as (new & St & _ & Hc).
    rewrite (st_upstream _ _ _ St), Hc in Srest.
    replace (calls w + S i)%nat with (calls w + 1 + i)%nat by lia.
    destruct Srest as (A & B & C). split; [done|]. split; [done|].
    intros evs ev He Hin Hid. destruct (C evs ev He Hin Hid) as [Hr Hled].
    split; [done|]. intros Hnf. apply Hled. intros n.
    rewrite (st_faults _ _ _ St). apply Hnf.
Qed.

(** C9. When the wallet query succeeds, the seeder requests the 5 most
    recent events of every wallet's raw address; for every wallet whose
    request is answered it attempts the ledger insert of each event with a
    non-empty id (and the pair is in the ledger afterwards when the database
    does not fail); a wallet whose request fails is logged and the loop goes
    on, whatever happened to the wallets before it; and no handler is ever
    started. *)
Theorem seedAllWallets_backfills (w : World) :
  faults (store w) (stmts (store w)) = false →
  let w' := seedAllWallets w in
  dispatches (trace w') = dispatches (trace w)
  ∧ ∀ i wl, wallets (store w) !! i = Some wl →
      EGetEvents (AddressRaw wl) 5 ∈ trace w'
      ∧ (is_ok (events_at (upstream w) (calls w + i) (AddressRaw wl) 5) = false →
         ELog LWarn "fetch events for seeding" [ID wl] ∈ trace w')
      ∧ ∀ evs ev,
          events_at (upstream w) (calls w + i) (AddressRaw wl) 5 = Ok evs →
          ev ∈ evs → EventID ev ≠ "" →
          (∃ r, EMark (ID wl) (EventID ev) r ∈ trace w')
          ∧ ((∀ n, faults (store w) n = false) →
             (ID wl, EventID ev) ∈ processed_events (store w')).
Proof.
  intros Hf. unfold seedAllWallets, on_store, GetAllWallets, stmt.
  cbn [fst snd]. rewrite Hf.
  set (w0 := emit EGetAllWallets _).
  assert (H0 : seeds_to w w0 0).
  { exists [EGetAllWallets]. split; [by apply steps_quiet|]. split; [done|simpl; lia]. }
  change (wallets _) with (wallets (store w)).
  destruct (length (wallets (store w)) =? 0)%nat eqn:Hlen.
  { apply Nat.eqb_eq, length_zero_iff_nil in Hlen. rewrite Hlen. split.
    - simpl. by rewrite !dispatches_app, !app_nil_r.
    - intros i wl H. by rewrite lookup_nil in H. }
  set (w1 := log LInfo "seeding wallets" _ w0).
  assert (H1 : seeds_to w w1 0)
    by apply (seeds_trans _ _ _ 0 0 H0), seeds_log.
  destruct (seed_wallets_spec (wallets (store w)) w1 0) as [H2 S2].
  destruct (foldl seed_wallet (w1, 0) (wallets (store w))) as [w2 total].
  cbn [fst] in H2, S2.
  pose proof (seeds_log LInfo "seeding complete" [total] w2) as H3.
  pose proof (seeds_trans _ _ _ _ _ H1 (seeds_trans _ _ _ _ _ H2 H3)) as Hall.
  split.
  - destruct Hall as (new & St & Hd & _).
    by rewrite (st_trace _ _ _ St), dispatches_app, Hd, app_nil_r.
  - intros i wl Hl. apply (seeded_mono _ _ _ _ _ _ _ H3), S2, Hl.
Qed.

End Seeder.

Lemma seedAllWallets_backfills_witness :
  let w := mkWorld sample_store history_upstream 0 [] in
  (3, "c1") ∈ processed_events (store (main.seedAllWallets w))
  ∧ dispatches (trace (main.seedAllWallets w)) = [].
Proof.
  intros w.
  assert (Hf : faults (store w) (stmts (store w)) = false) by reflexivity.
  destruct (seedAllWallets_backfills w Hf) as [Hd Hw]. split; [|exact Hd].
  destruct (Hw 2%nat carol eq_refl) as (_ & _ & H).
  destruct (H [mkEvent "c1" 1690001000 false] (mkEvent "c1" 1690001000 false) eq_refl)
    as [_ Hl]; [apply list_elem_of_here|discriminate|].
  apply Hl. intros n. reflexivity.
Defined.

(** ** The rate limiter *)

Section Throttle.

Lemma Sub_monotonic_clock (now last : Z) :
  last <= now → Sub now last = Z.min maxDuration (now - last).
Proof. unfold Sub, minDuration, maxDuration. lia. Qed.

Lemma throttle_spec (c : Client) (now : Z) (oversleep : N) :
  lastCall c <= now → 0 <= minDelay c <= maxDuration →
  let t := (throttle now oversleep c).1 in
  let c' := (throttle now oversleep c).2 in
  lastCall c' = t ∧ minDelay c' = minDelay c ∧ now <= t
  ∧ lastCall c + minDelay c <= t
  ∧ (minDelay c <= now - lastCall c → t = now)
  ∧ (now - lastCall c < minDelay c → t = lastCall c + minDelay c + Z.of_N oversleep).
Proof.
  intros Hmono Hdelay. unfold throttle. cbn [fst snd lastCall minDelay].
  rewrite Sub_monotonic_clock by done.
  destruct (Z.ltb_spec (Z.min maxDuration (now - lastCall c)) (minDelay c));
    repeat split; lia.
Qed.

Lemma run_spaced (calls : list Call) :
  ∀ (free : Z) (c : Client),
    lastCall c <= free → 0 <= minDelay c <= maxDuration →
    (∀ t, head (run free c calls) = Some t → lastCall c + minDelay c <= issued t)
    ∧ ∀ i a b, run free c calls !! i = Some a → run free c calls !! S i = Some b →
        issued a + minDelay c <= issued b.
Proof.
  induction calls as [|k calls IH]; intros free c Hfree Hdelay; cbn [run].
  { split; [done|]. intros i a b H. by rewrite lookup_nil in H. }
  unfold doRequest.
  pose proof (throttle_spec c (Z.max (arrive k) free) (oversleep_of k)) as T.
  destruct (throttle (Z.max (arrive k) free) (oversleep_of k) c) as [t c'].
  cbn [fst snd] in T. destruct T as (Hlast & Hmin & Hnow & Hgap & _); [lia|done|].
  destruct (IH t c') as [Hhead Hadj]; [lia|by rewrite Hmin|].
  cbn [issued]. split.
  - intros t0 [= <-]. cbn [issued]. done.
  - intros [|i] a b Ha Hb; cbn in Ha, Hb.
    + injection Ha as <-. cbn [issued]. rewrite <- Hmin, <- Hlast.
      apply Hhead. by destruct (run t c' calls).
    + rewrite <- Hmin. by eapply Hadj.
Qed.

(** C4. Let any number of goroutines call through one client made by
    NewClient, in whatever order they get the mutex and however long sleeps
    and round trips last: the instants at which consecutive requests are
    sent, each the instant its call leaves the throttle, lie at least 250ms
    apart. *)
Theorem requests_spaced (boot : Z) (calls : list Call) :
  0 <= boot →
  ∀ i a b,
    run boot NewClient calls !! i = Some a →
    run boot NewClient calls !! S i = Some b →
    issued a + 250 * Millisecond <= issued b.
Proof.
  intros Hboot.
  apply (run_spaced calls boot NewClient); [done|].
  unfold NewClient, maxDuration, Millisecond; simpl. lia.
Qed.

(** C7, as amended. The throttle lets a request go no earlier than one
    minimum interval after the instant the previous call left the throttle,
    which is the instant the previous request was sent; a caller that arrives
    a full interval or more after that instant is not held back at all,
    however recently the previous call returned. *)
Theorem throttle_waits_since_last_grant (c : Client) (now : Z) (oversleep latency : N) :
  lastCall c <= now → 0 <= minDelay c <= maxDuration →
  let t := (doRequest now oversleep latency c).1 in
  let c' := (doRequest now oversleep latency c).2 in
  lastCall c + minDelay c <= issued t
  ∧ (minDelay c <= now - lastCall c → issued t = now)
  ∧ lastCall c' = issued t ∧ minDelay c' = minDelay c.
Proof.
  intros Hmono Hdelay. unfold doRequest.
  pose proof (throttle_spec c now oversleep Hmono Hdelay) as T.
  destruct (throttle now oversleep c) as [t c']. cbn [fst snd issued] in *.
  destruct T as (Hlast & Hmin & _ & Hgap & Hfree & _). done.
Qed.

End Throttle.

Lemma requests_spaced_witness :
  let calls := [mkCall 1000000000000000500 0 300000000;
                mkCall 1000000000000000500 7 20000000;
                mkCall 1000000000000000900 0 20000000] in
  issued <$> run 1000000000000000000 NewClient calls
    = [1000000000000000500; 1000000000250000507; 1000000000500000507]
  ∧ ∀ i a b, run 1000000000000000000 NewClient calls !! i = Some a →
             run 1000000000000000000 NewClient calls !! S i = Some b →
             issued a + 250 * Millisecond <= issued b.
Proof.
  intros calls. split; [vm_compute; reflexivity|].
  apply (requests_spaced 1000000000000000000 calls). vm_compute. discriminate.
Defined.

(** The first call is sent at once and takes 300ms; the next caller arrives
    as it returns and is sent at once too, no interval after the return. *)
Lemma waits_since_return_refuted :
  ¬ waits_since_return NewClient 1000000000000000000 0 300000000 0.
Proof. vm_compute. intros H. by apply H. Qed.

Lemma throttle_waits_since_last_grant_witness :
  let c := (doRequest 1000000000000000000 0 300000000 NewClient).2 in
  let t := (doRequest 1000000000300000000 0 0 c).1 in
  issued t = 1000000000300000000.
Proof.
  intros c t.
  apply (throttle_waits_since_last_grant c 1000000000300000000 0 0);
    vm_compute; try split; discriminate.
Defined.

(** ** The receiver: who is notified, and of what *)

Section Delivery.
Import webhook.

Ltac empty_cases :=
  intros; match goal with H : _ ∈ [] |- _ => by apply elem_of_nil in H end.

Lemma handed_app (l k : list Effect) : handed (l ++ k) = handed l ++ handed k.
Proof. apply omap_app. Qed.

Lemma marks_app (l k : list Effect) : marks (l ++ k) = marks l ++ marks k.
Proof. apply omap_app. Qed.

(** What one pass of the loop body leaves behind. *)
Lemma process_wallet_report event w wallet :
  let w' := process_wallet event w wallet in
  ∃ new, trace w' = trace w ++ new
    ∧ wallets (store w') = wallets (store w)
    ∧ calls w' = calls w ∧ upstream w' = upstream w
    ∧ faults (store w') = faults (store w)
    ∧ marks new = [(ID wallet, EventID event)]
    ∧ processed_events (store w')
        ⊆ {[ (ID wallet, EventID event) ]} ∪ processed_events (store w)
    ∧ (handed new = []
       ∨ handed new = [(wallet, event)]
         ∧ EMark (ID wallet) (EventID event) (Ok true) ∈ new).
Proof.
  unfold process_wallet, markEventProcessed.
  pose proof (MarkEventProcessed_spec (ID wallet) (EventID event) (store w)) as H.
  destruct (MarkEventProcessed (ID wallet) (EventID event) (store w)) as [r st'].
  cbn [fst snd] in H. destruct H as (Hf & Hw & _ & _ & Hsub & _).
  destruct r as [[|]|e]; cbn [fst snd]; eexists; (split; [simpl; by rewrite <- app_assoc|]);
    simpl; repeat split; try done; try (by left).
  right. split; [done|]. set_solver.
Qed.

Lemma process_wallets_report event wallets0 :
  ∀ w, let w' := foldl (process_wallet event) w wallets0 in
  ∃ new, trace w' = trace w ++ new
    ∧ wallets (store w') = wallets (store w)
    ∧ calls w' = calls w ∧ upstream w' = upstream w
    ∧ faults (store w') = faults (store w)
    ∧ marks new = (fun wl => (ID wl, EventID event)) <$> wallets0
    ∧ processed_events (store w') ⊆ list_to_set (marks new) ∪ processed_events (store w)
    ∧ ∀ wl ev, (wl, ev) ∈ handed new →
        wl ∈ wallets0 ∧ ev = event ∧ EMark (ID wl) (EventID event) (Ok true) ∈ new.
Proof.
  induction wallets0 as [|wl0 ws IH]; intros w; cbn [foldl].
  { exists []. rewrite app_nil_r. repeat split; try done; try set_solver.
    all: by apply elem_of_nil in H. }
  destruct (process_wallet_report event w wl0) as (n1 & T1 & W1 & C1 & U1 & F1 & M1 & P1 & H1).
  destruct (IH (process_wallet event w wl0)) as (n2 & T2 & W2 & C2 & U2 & F2 & M2 & P2 & H2).
  exists (n1 ++ n2). rewrite marks_app, handed_app, M1, M2.
  split; [by rewrite T2, T1, app_assoc|].
  split; [congruence|]. split; [congruence|]. split; [congruence|]. split; [congruence|].
  split; [done|]. split.
  { rewrite M2 in P2. set_solver. }
  intros wl ev [Hin|Hin]%elem_of_app.
  - destruct H1 as [H1|[H1 Hm]]; rewrite H1 in Hin; [by apply elem_of_nil in Hin|].
    apply list_elem_of_singleton in Hin as [= -> ->].
    split; [apply list_elem_of_here|]. split; [done|]. set_solver.
  - destruct (H2 wl ev Hin) as (? & ? & ?).
    split; [by apply list_elem_of_further|]. split; [done|]. set_solver.
Qed.

Lemma processTransaction_report payload w w' :
  processTransaction payload w = Done w' →
  ∃ new, trace w' = trace w ++ new
    ∧ wallets (store w') = wallets (store w)
    ∧ upstream w' = upstream w
    ∧ faults (store w') = faults (store w)
    ∧ calls w' = (if fetches payload w then S (calls w) else calls w)
    ∧ processed_events (store w') ⊆ list_to_set (marks new) ∪ processed_events (store w)
    ∧ (∀ p, p ∈ marks new →
         ∃ wl ev, wl ∈ tracking (AccountID payload) (store w)
                  ∧ resolved payload w ev ∧ p = (ID wl, EventID ev))
    ∧ (∀ wl ev, (wl, ev) ∈ handed new →
         wl ∈ tracking (AccountID payload) (store w)
         ∧ resolved payload w ev
         ∧ EMark (ID wl) (EventID ev) (Ok true) ∈ new).
Proof.
  unfold processTransaction, fetches, tracking, on_store, GetWalletsByRaw, stmt.
  cbn [fst snd faults stmts wallets store].
  destruct (faults (store w) (stmts (store w))) eqn:Hq; cbn [negb andb].
  { intros [= <-]. eexists. split; [simpl; by rewrite <- app_assoc|].
    simpl. split_and!; try done; try set_solver; empty_cases. }
  set (ws := filter (fun wl => AddressRaw wl = AccountID payload) (wallets (store w))).
  set (w0 := emit (EGetWalletsByRaw (AccountID payload)) _).
  assert (T0 : trace w0 = trace w ++ [EGetWalletsByRaw (AccountID payload)]) by done.
  assert (W0 : wallets (store w0) = wallets (store w)) by done.
  assert (U0 : upstream w0 = upstream w) by done.
  assert (F0 : faults (store w0) = faults (store w)) by done.
  assert (C0 : calls w0 = calls w) by done.
  assert (P0 : processed_events (store w0) = processed_events (store w)) by done.
  clearbody w0.
  assert (quiet_end : ∀ lv msg nums w1 pre,
    trace w1 = trace w ++ pre → marks pre = [] → handed pre = [] →
    wallets (store w1) = wallets (store w) → upstream w1 = upstream w →
    faults (store w1) = faults (store w) →
    processed_events (store w1) = processed_events (store w) →
    ∃ new, trace (log lv msg nums w1) = trace w ++ new
      ∧ wallets (store (log lv msg nums w1)) = wallets (store w)
      ∧ upstream (log lv msg nums w1) = upstream w
      ∧ faults (store (log lv msg nums w1)) = faults (store w)
      ∧ calls (log lv msg nums w1) = calls w1
      ∧ processed_events (store (log lv msg nums w1))
          ⊆ list_to_set (marks new) ∪ processed_events (store w)
      ∧ marks new = [] ∧ handed new = []).
  { intros lv msg nums w1 pre T M H W U F P.
    exists (pre ++ [ELog lv msg nums]). rewrite marks_app, handed_app, M, H. simpl.
    split; [by rewrite T, app_assoc|]. split_and!; try done. rewrite P. set_solver. }
  destruct (length ws =? 0)%nat eqn:Hlen.
  { apply Nat.eqb_eq, length_zero_iff_nil in Hlen.
    rewrite (bool_decide_eq_true_2 (ws = [])) by done. cbn [negb andb].
    destruct (slice_to (AccountID payload) 10); [|done]. intros [= <-].
    destruct (quiet_end LDebug "no wallets found for account" [] w0
                [EGetWalletsByRaw (AccountID payload)])
      as (new & T & W & U & F & C & P & M & H); try done.
    exists new. split_and!; try done; try congruence;
      intros; rewrite ?M, ?H in *; empty_cases. }
  assert (Hne : ws ≠ []).
  { apply Nat.eqb_neq in Hlen. intros E. apply Hlen. by rewrite E. }
  rewrite (bool_decide_eq_false_2 (ws = [])) by done. cbn [negb andb].
  assert (run_event : ∀ event w1 pre,
    trace w1 = trace w ++ pre → marks pre = [] → handed pre = [] →
    wallets (store w1) = wallets (store w) → upstream w1 = upstream w →
    faults (store w1) = faults (store w) →
    processed_events (store w1) = processed_events (store w) →
    (EventID event ≠ "" → resolved payload w event) →
    ∃ new, trace (process_event ws event w1) = trace w ++ new
      ∧ wallets (store (process_event ws event w1)) = wallets (store w)
      ∧ upstream (process_event ws event w1) = upstream w
      ∧ faults (store (process_event ws event w1)) = faults (store w)
      ∧ calls (process_event ws event w1) = calls w1
      ∧ processed_events (store (process_event ws event w1))
          ⊆ list_to_set (marks new) ∪ processed_events (store w)
      ∧ (∀ p, p ∈ marks new →
           ∃ wl ev, wl ∈ ws ∧ resolved payload w ev ∧ p = (ID wl, EventID ev))
      ∧ (∀ wl ev, (wl, ev) ∈ handed new →
           wl ∈ ws ∧ resolved payload w ev
           ∧ EMark (ID wl) (EventID ev) (Ok true) ∈ new)).
  { intros event w1 pre T M H W U F P R. unfold process_event.
    case_bool_decide as Hid.
    - destruct (quiet_end LWarn "no event_id in event" [] w1 pre)
        as (new & T' & W' & U' & F' & C' & P' & M' & H'); try done.
      exists new. split_and!; try done; intros; rewrite ?M', ?H' in *; empty_cases.
    - set (w2 := log LInfo "processing event" _ w1).
      destruct (process_wallets_report event ws w2)
        as (n & T2 & W2 & C2 & U2 & F2 & M2 & P2 & H2).
      exists (pre ++ [ELog LInfo "processing event" [Z.of_nat (length ws)]] ++ n).
      rewrite !marks_app, !handed_app, M, H. simpl.
      split; [rewrite T2; simpl; by rewrite T, <- !app_assoc|].
      split; [by rewrite W2|]. split; [by rewrite U2|]. split; [by rewrite F2|].
      split; [by rewrite C2|]. split; [rewrite <- P; exact P2|]. split.
      + intros p Hp. rewrite M2 in Hp. apply list_elem_of_fmap in Hp as (wl & -> & Hwl).
        exists wl, event. auto.
      + intros wl ev Hin. destruct (H2 wl ev Hin) as (Hwl & -> & Hm).
        split; [done|]. split; [auto|]. set_solver. }
  destruct (Event_ payload) as [event|] eqn:He.
  { rewrite (bool_decide_eq_false_2 (Some event = None)) by done. cbn [andb].
    intros [= <-].
    destruct (run_event event w0 [EGetWalletsByRaw (AccountID payload)])
      as (new & T & W & U & F & C & P & M & H); try done.
    { intros Hid. split; [done|]. by left. }
    exists new. split_and!; try done. congruence. }
  rewrite (bool_decide_eq_true_2 (None = None)) by done. cbn [andb].
  case_bool_decide as Htx; cbn [negb].
  { intros [= <-].
    destruct (quiet_end LWarn "no event data and no tx_hash" [] w0
                [EGetWalletsByRaw (AccountID payload)])
      as (new & T & W & U & F & C & P & M & H); try done.
    exists new. split_and!; try done; try congruence;
      intros; rewrite ?M, ?H in *; empty_cases. }
  unfold GetEventByHash, request. cbn [fst snd].
  set (w1 := emit (EGetEventByHash (TxHash payload)) _).
  assert (T1 : trace w1 = trace w ++ [EGetWalletsByRaw (AccountID payload);
                                      EGetEventByHash (TxHash payload)])
    by (simpl; by rewrite T0, <- app_assoc).
  assert (W1 : wallets (store w1) = wallets (store w)) by done.
  assert (U1 : upstream w1 = upstream w) by done.
  assert (F1 : faults (store w1) = faults (store w)) by done.
  assert (C1 : calls w1 = S (calls w)) by (simpl; by rewrite C0).
  assert (P1 : processed_events (store w1) = processed_events (store w)) by done.
  clearbody w1. rewrite U0, C0.
  destruct (event_by_hash_at (upstream w) (calls w) (TxHash payload)) as [event|e] eqn:Hfetch;
    intros [= <-].
  - destruct (run_event event w1 [EGetWalletsByRaw (AccountID payload);
                                  EGetEventByHash (TxHash payload)])
      as (new & T & W & U & F & C & P & M & H); try done.
    { intros Hid. split; [done|]. right. done. }
    exists new. split_and!; try done. congruence.
  - destruct (quiet_end LWarn "fetch event by hash" [] w1
                [EGetWalletsByRaw (AccountID payload); EGetEventByHash (TxHash payload)])
      as (new & T & W & U & F & C & P & M & H); try done.
    exists new. split_and!; try done; try congruence;
      intros; rewrite ?M, ?H in *; empty_cases.
Qed.

(** X1. A delivery starts handlers only for wallets of the table whose raw
    address is the payload's account id, only with the event the payload
    carries or the one fetched for its transaction hash, and never touches
    the wallets table. *)
Theorem dispatch_only_to_trackers (payload : WebhookPayload) (w w' : World) :
  processTransaction payload w = Done w' →
  wallets (store w') = wallets (store w)
  ∧ ∀ wl ev, (wl, ev) ∈ handed (trace w') →
      (wl, ev) ∈ handed (trace w)
      ∨ (wl ∈ wallets (store w) ∧ AddressRaw wl = AccountID payload
         ∧ resolved payload w ev).
Proof.
  intros H. apply processTransaction_report in H
    as (new & T & W & _ & _ & _ & _ & _ & Hh).
  split; [done|]. intros wl ev. rewrite T, handed_app, elem_of_app.
  intros [Hin|Hin]; [by left|right].
  destruct (Hh wl ev Hin) as (Htr & Hres & _).
  apply list_elem_of_filter in Htr as [Ha Hw]. done.
Qed.

(** X2. Every ledger row a delivery adds pairs a wallet that tracks the
    payload's account with the id of the resolved event. *)
Theorem ledger_rows_added_by_delivery (payload : WebhookPayload) (w w' : World) :
  processTransaction payload w = Done w' →
  ∀ p, p ∈ processed_events (store w') →
    p ∈ processed_events (store w)
    ∨ ∃ wl ev, wl ∈ tracking (AccountID payload) (store w)
               ∧ resolved payload w ev ∧ p = (ID wl, EventID ev).
Proof.
  intros H. apply processTransaction_report in H
    as (new & _ & _ & _ & _ & _ & P & M & _).
  intros p Hp. apply P in Hp. apply elem_of_union in Hp as [Hp|Hp]; [|by left].
  right. apply M. by apply elem_of_list_to_set in Hp.
Qed.

(** X3. When no wallet tracks the account, or no event with a non-empty id
    can be resolved (no inline event and no transaction hash, a failed fetch,
    an empty event id), a delivery that returns leaves the ledger as it was,
    attempts no ledger write and starts no handler. *)
Theorem unresolved_delivery_changes_nothing (payload : WebhookPayload) (w w' : World) :
  processTransaction payload w = Done w' →
  tracking (AccountID payload) (store w) = [] ∨ (∀ ev, ¬ resolved payload w ev) →
  processed_events (store w') = processed_events (store w)
  ∧ marks (trace w') = marks (trace w)
  ∧ handed (trace w') = handed (trace w).
Proof.
  intros H Hnone. pose proof (steps_processTransaction _ _ _ H) as [new' S].
  apply processTransaction_report in H as (new & T & _ & _ & _ & _ & P & M & Hh).
  assert (Hm : marks new = []).
  { destruct (marks new) as [|p l] eqn:E; [done|].
    destruct (M p) as (wl & ev & Hwl & Hres & _); [apply list_elem_of_here|].
    destruct Hnone as [Hn|Hn]; [rewrite Hn in Hwl; by apply elem_of_nil in Hwl|].
    by apply Hn in Hres. }
  assert (Hd : handed new = []).
  { destruct (handed new) as [|[wl ev] l] eqn:E; [done|].
    destruct (Hh wl ev) as (Hwl & Hres & _); [apply list_elem_of_here|].
    destruct Hnone as [Hn|Hn]; [rewrite Hn in Hwl; by apply elem_of_nil in Hwl|].
    by apply Hn in Hres. }
  rewrite T, marks_app, handed_app, Hm, Hd, !app_nil_r. split; [|done].
  apply set_eq. intros p. split.
  - intros Hp. apply P in Hp. rewrite Hm in Hp. set_solver.
  - apply (st_grow _ _ _ S).
Qed.

(** X4. A delivery asks the upstream at most once: exactly when the wallet
    query succeeded and found a wallet and the payload has a transaction hash
    but no inline event. *)
Theorem delivery_upstream_requests (payload : WebhookPayload) (w w' : World) :
  processTransaction payload w = Done w' →
  calls w' = (if fetches payload w then S (calls w) else calls w)
  ∧ upstream w' = upstream w.
Proof.
  intros H. by apply processTransaction_report in H as (new & _ & _ & U & _ & C & _).
Qed.

Lemma MarkEventProcessed_healthy walletID eventID s :
  faults s (stmts s) = false → faults s (S (stmts s)) = false →
  (MarkEventProcessed walletID eventID s).1
    = Ok (bool_decide ((walletID, eventID) ∉ processed_events s))
  ∧ processed_events (MarkEventProcessed walletID eventID s).2
    = {[ (walletID, eventID) ]} ∪ processed_events s.
Proof.
  intros F1 F2. unfold MarkEventProcessed, insert_or_ignore, stmt; simpl.
  rewrite F1. simpl.
  destruct (decide ((walletID, eventID) ∈ processed_events s)) as [Hin|Hnin];
    simpl; rewrite F2; simpl.
  - rewrite bool_decide_eq_false_2 by (intros Hn; by apply Hn).
    split; [done|]. set_solver.
  - rewrite bool_decide_eq_true_2 by done. done.
Qed.

Lemma filter_fresh_pair (wid : Z) (eid : string) (pe : gset (Z * string)) (l : list Wallet) :
  wid ∉ ID <$> l →
  filter (fun wl => (ID wl, eid) ∉ {[ (wid, eid) ]} ∪ pe) l
  = filter (fun wl => (ID wl, eid) ∉ pe) l.
Proof.
  induction l as [|x l IH]; intros Hn; [done|].
  rewrite fmap_cons in Hn. apply not_elem_of_cons in Hn as [Hx Hl].
  rewrite !filter_cons, IH by done.
  destruct (decide ((ID x, eid) ∉ pe)) as [H1|H1].
  - rewrite decide_True; [done|]. set_solver.
  - rewrite decide_False; [done|]. set_solver.
Qed.

Lemma process_wallets_exact event wallets0 :
  ∀ w, (∀ n, faults (store w) n = false) → NoDup (ID <$> wallets0) →
    let w' := foldl (process_wallet event) w wallets0 in
    handed (trace w')
      = handed (trace w)
        ++ ((fun wl => (wl, event))
              <$> filter (fun wl => (ID wl, EventID event) ∉ processed_events (store w))
                    wallets0)
    ∧ processed_events (store w')
      = list_to_set ((fun wl => (ID wl, EventID event)) <$> wallets0)
        ∪ processed_events (store w).
Proof.
  induction wallets0 as [|wl ws IH]; intros w Hf Hnd; cbn [foldl].
  { simpl. rewrite app_nil_r. split; [done|]. set_solver. }
  rewrite fmap_cons in Hnd. apply NoDup_cons in Hnd as [Hwl Hnd].
  assert (Hstep : handed (trace (process_wallet event w wl))
                  = handed (trace w)
                    ++ (if decide ((ID wl, EventID event) ∉ processed_events (store w))
                        then [(wl, event)] else [])
                  ∧ processed_events (store (process_wallet event w wl))
                    = {[ (ID wl, EventID event) ]} ∪ processed_events (store w)
                  ∧ faults (store (process_wallet event w wl)) = faults (store w)).
  { unfold process_wallet, markEventProcessed.
    destruct (MarkEventProcessed_healthy (ID wl) (EventID event) (store w)) as [Hr Hp];
      [apply Hf|apply Hf|].
    pose proof (MarkEventProcessed_spec (ID wl) (EventID event) (store w)) as Hs.
    destruct (MarkEventProcessed (ID wl) (EventID event) (store w)) as [r st'].
    cbn [fst snd] in *. destruct Hs as (Hfl & _). subst r.
    case_decide as Hd.
    - rewrite (bool_decide_eq_true_2 _ Hd). simpl.
      by rewrite !handed_app, <- app_assoc.
    - rewrite (bool_decide_eq_false_2 _ (fun Hn => Hn Hd)). simpl.
      by rewrite !handed_app, !app_nil_r. }
  destruct Hstep as (Hh & Hp & Hfl).
  destruct (IH (process_wallet event w wl)) as [Hh' Hp']; [|done|].
  { intros n. rewrite Hfl. apply Hf. }
  cbv zeta in Hh', Hp'. rewrite Hh', Hp', Hh, Hp.
  rewrite filter_fresh_pair by done. split.
  - rewrite filter_cons. case_decide; by rewrite <- app_assoc.
  - rewrite fmap_cons. set_solver.
Qed.

Lemma delivery_exact (payload : WebhookPayload) (event : Event) (w : World) :
  Event_ payload = Some event → EventID event ≠ "" →
  (∀ n, faults (store w) n = false) →
  NoDup (ID <$> wallets (store w)) →
  tracking (AccountID payload) (store w) ≠ [] →
  ∃ w', processTransaction payload w = Done w'
    ∧ handed (trace w')
      = handed (trace w)
        ++ ((fun wl => (wl, event))
              <$> filter (fun wl => (ID wl, EventID event) ∉ processed_events (store w))
                    (tracking (AccountID payload) (store w)))
    ∧ processed_events (store w')
      = list_to_set ((fun wl => (ID wl, EventID event))
                       <$> tracking (AccountID payload) (store w))
        ∪ processed_events (store w).
Proof.
  intros He Hid Hf Hnd Hne.
  unfold processTransaction, tracking, on_store, GetWalletsByRaw, stmt in *.
  cbn [fst snd faults stmts wallets store]. rewrite Hf. rewrite He.
  set (ws := filter (fun wl => AddressRaw wl = AccountID payload) (wallets (store w))) in *.
  destruct (length ws =? 0)%nat eqn:Hlen.
  { apply Nat.eqb_eq, length_zero_iff_nil in Hlen. done. }
  eexists. split; [reflexivity|]. unfold process_event.
  rewrite bool_decide_eq_false_2 by done.
  set (w1 := log LInfo "processing event" _ _).
  destruct (process_wallets_exact event ws w1) as [Hh Hp].
  - intros n. apply Hf.
  - apply (sublist_NoDup (ID <$> ws) (ID <$> wallets (store w))); [done|].
    apply fmap_sublist, sublist_filter.
  - cbv zeta in Hh, Hp. rewrite Hh, Hp. subst w1. simpl.
    by rewrite !handed_app, !app_nil_r.
Qed.

(** X5. Fan-out. With a database that does not fail and distinct wallet ids,
    a delivery that carries its event inline, for an account at least one
    wallet tracks, starts exactly one handler for every tracking wallet whose
    (wallet, event) pair is not yet in the ledger, in table order, and none
    for the others; afterwards the pair of every tracking wallet is in the
    ledger. *)
Theorem delivery_fans_out (payload : WebhookPayload) (event : Event) (w : World) :
  Event_ payload = Some event → EventID event ≠ "" →
  (∀ n, faults (store w) n = false) →
  NoDup (ID <$> wallets (store w)) →
  tracking (AccountID payload) (store w) ≠ [] →
  ∃ w', processTransaction payload w = Done w'
    ∧ handed (trace w')
      = handed (trace w)
        ++ ((fun wl => (wl, event))
              <$> filter (fun wl => (ID wl, EventID event) ∉ processed_events (store w))
                    (tracking (AccountID payload) (store w)))
    ∧ processed_events (store w')
      = list_to_set ((fun wl => (ID wl, EventID event))
                       <$> tracking (AccountID payload) (store w))
        ∪ processed_events (store w).
Proof. apply delivery_exact. Qed.



End Delivery.

Section Backfill.
Import webhook main.



End Backfill.

Lemma dispatch_only_to_trackers_witness :
  let w' := world_of (webhook.processTransaction fresh_push sample_world) in
  wallets (store w') = wallets (store sample_world).
Proof.
  intros w'.
  apply (dispatch_only_to_trackers fresh_push sample_world w').
  vm_compute. reflexivity.
Defined.

Lemma ledger_rows_added_by_delivery_witness :
  let w' := world_of (webhook.processTransaction fresh_push sample_world) in
  (1, "e9") ∈ processed_events (store sample_world)
  ∨ ∃ wl ev, wl ∈ tracking (AccountID fresh_push) (store sample_world)
             ∧ resolved fresh_push sample_world ev ∧ (1, "e9") = (ID wl, EventID ev).
Proof.
  intros w'.
  apply (ledger_rows_added_by_delivery fresh_push sample_world w').
  - vm_compute. reflexivity.
  - apply (bool_decide_unpack _). vm_compute. exact I.
Defined.

Lemma unresolved_delivery_changes_nothing_witness :
  let w' := world_of (webhook.processTransaction untracked_push sample_world) in
  processed_events (store w') = processed_events (store sample_world).
Proof.
  intros w'.
  apply (unresolved_delivery_changes_nothing untracked_push sample_world w').
  - vm_compute. reflexivity.
  - left. vm_compute. reflexivity.
Defined.

Lemma delivery_upstream_requests_witness :
  let w' := world_of (webhook.processTransaction hash_push sample_world) in
  calls w' = 1%nat.
Proof.
  intros w'.
  apply (delivery_upstream_requests hash_push sample_world w').
  vm_compute. reflexivity.
Defined.

Lemma delivery_fans_out_witness :
  ∃ w', webhook.processTransaction fresh_push sample_world = Done w'
        ∧ handed (trace w')
          = [(alice, mkEvent "e9" 1700000000 false); (bob, mkEvent "e9" 1700000000 false)].
Proof.
  destruct (delivery_fans_out fresh_push (mkEvent "e9" 1700000000 false) sample_world)
    as (w' & Hrun & Hh & _).
  - reflexivity.
  - discriminate.
  - intros n. reflexivity.
  - apply (bool_decide_unpack _). vm_compute. exact I.
  - vm_compute. discriminate.
  - exists w'. split; [exact Hrun|]. rewrite Hh. vm_compute. reflexivity.
Defined.



(** ** The wallets table *)

Section Wallets.
Import webhook.

Lemma max_id_bound (ws : list Wallet) w : w ∈ ws → ID w <= max_id ws.
Proof.
  induction ws as [|x ws IH]; [by intros H; apply elem_of_nil in H|].
  intros [->|H]%elem_of_cons; simpl; [lia|]. apply IH in H. lia.
Qed.

Lemma max_id_nonneg (ws : list Wallet) : 0 <= max_id ws.
Proof. induction ws; simpl; lia. Qed.

Lemma AddWallet_spec (userID : Z) (name raw display : string) (maxWallets : Z)
    (s : Storage) :
  let owned := Z.of_nat (length (filter (fun w => UserID w = userID) (wallets s))) in
  match AddWallet userID name raw display maxWallets s with
  | (Ok w, s') =>
      owned < maxWallets
      ∧ w = mkWallet (ID w) userID name raw display
      ∧ wallets s' = wallets s ++ [w]
      ∧ (∀ w0, w0 ∈ wallets s → ID w0 < ID w)
      ∧ 0 < ID w ∧ wallets_seq s < ID w ∧ wallets_seq s' = ID w
      ∧ processed_events s' = processed_events s
  | (Err e, s') =>
      wallets s' = wallets s ∧ wallets_seq s' = wallets_seq s
      ∧ processed_events s' = processed_events s
      ∧ (e = ErrLimitReached → maxWallets <= owned)
  end.
Proof.
  unfold AddWallet, stmt; simpl.
  destruct (faults s (stmts s)); simpl; [done|].
  destruct (Z.leb_spec maxWallets
              (Z.of_nat (length (filter (fun w => UserID w = userID) (wallets s)))));
    simpl; [done|].
  destruct (faults s (S (stmts s))); simpl; [done|].
  pose proof (max_id_nonneg (wallets s)).
  split_and!; try done; try lia.
  intros w0 Hw0. apply max_id_bound in Hw0. lia.
Qed.

(** X8. AddWallet either appends one row or changes no table. It succeeds
    only while the user owns fewer than maxWallets wallets; the new row
    carries the arguments and a positive id above every id in the table and above
    the AUTOINCREMENT mark; ErrLimitReached means the user is at the limit. *)
Theorem AddWallet_outcome (userID : Z) (name raw display : string) (maxWallets : Z)
    (s : Storage) :
  let owned := Z.of_nat (length (filter (fun w => UserID w = userID) (wallets s))) in
  match AddWallet userID name raw display maxWallets s with
  | (Ok w, s') =>
      owned < maxWallets
      ∧ w = mkWallet (ID w) userID name raw display
      ∧ wallets s' = wallets s ++ [w]
      ∧ (∀ w0, w0 ∈ wallets s → ID w0 < ID w)
      ∧ 0 < ID w ∧ wallets_seq s < ID w ∧ wallets_seq s' = ID w
      ∧ processed_events s' = processed_events s
  | (Err e, s') =>
      wallets s' = wallets s ∧ wallets_seq s' = wallets_seq s
      ∧ processed_events s' = processed_events s
      ∧ (e = ErrLimitReached → maxWallets <= owned)
  end.
Proof. apply AddWallet_spec. Qed.


Lemma RemoveWallet_tables userID walletID s :
  wallets_seq (RemoveWallet userID walletID s).2 = wallets_seq s
  ∧ (wallets (RemoveWallet userID walletID s).2 = wallets s
     ∨ wallets (RemoveWallet userID walletID s).2
       = filter (fun w => ¬ (UserID w = userID ∧ ID w = walletID)) (wallets s)).
Proof.
  unfold RemoveWallet, stmt; simpl.
  destruct (faults s (stmts s)); simpl; [by split; [|left]|].
  destruct (faults s (S (stmts s))); simpl; by split; [|right].
Qed.

Lemma reads_keep_wallets s :
  (∀ wid eid, wallets (MarkEventProcessed wid eid s).2 = wallets s
              ∧ wallets_seq (MarkEventProcessed wid eid s).2 = wallets_seq s)
  ∧ (∀ raw, wallets (GetWalletsByRaw raw s).2 = wallets s
            ∧ wallets_seq (GetWalletsByRaw raw s).2 = wallets_seq s)
  ∧ (wallets (GetAllWallets s).2 = wallets s
     ∧ wallets_seq (GetAllWallets s).2 = wallets_seq s)
  ∧ (∀ wid, wallets (GetWallet wid s).2 = wallets s
            ∧ wallets_seq (GetWallet wid s).2 = wallets_seq s).
Proof.
  split; [|split; [|split]].
  - intros wid eid. by destruct (MarkEventProcessed_spec wid eid s) as (_ & ? & ? & _).
  - intros raw. unfold GetWalletsByRaw, stmt; simpl. by destruct (faults s (stmts s)).
  - unfold GetAllWallets, stmt; simpl. by destruct (faults s (stmts s)).
  - intros wid. unfold GetWallet, stmt; simpl. destruct (faults s (stmts s)); [done|].
    simpl. by destruct (filter _ _).
Qed.

Lemma exec_ids s op :
  wallet_ids_ok s →
  wallet_ids_ok (exec s op)
  ∧ wallets_seq s <= wallets_seq (exec s op)
  ∧ ∀ w, w ∈ wallets (exec s op) → ID w <= wallets_seq s → w ∈ wallets s.
Proof.
  intros [Hnd Hb].
  assert (same : ∀ s', wallets s' = wallets s → wallets_seq s' = wallets_seq s →
            wallet_ids_ok s' ∧ wallets_seq s <= wallets_seq s'
            ∧ ∀ w, w ∈ wallets s' → ID w <= wallets_seq s → w ∈ wallets s).
  { intros s' Hw Hs. unfold wallet_ids_ok. rewrite Hw, Hs.
    split_and!; try done; try lia. }
  destruct (reads_keep_wallets s) as (Hm & Hr & Ha & Hg).
  destruct op as [u name raw display maxW|u wid|wid eid|raw| |wid]; simpl.
  - pose proof (AddWallet_spec u name raw display maxW s) as H. cbv zeta in H.
    destruct (AddWallet u name raw display maxW s) as [[w|e] s']; simpl.
    + destruct H as (_ & _ & Hw & Hlt & Hpos & Hseq & Hseq' & _).
      unfold wallet_ids_ok. rewrite Hw, Hseq'. split_and!; try lia.
      * rewrite fmap_app. apply NoDup_app. split; [done|]. split; [|apply NoDup_singleton].
        intros i [w0 [-> Hw0]]%list_elem_of_fmap Hi.
        apply list_elem_of_singleton in Hi. apply Hlt in Hw0. lia.
      * intros w0 [Hw0|Hw0]%elem_of_app.
        -- apply Hb in Hw0. lia.
        -- apply list_elem_of_singleton in Hw0 as ->. lia.
      * intros w0 [Hw0|Hw0]%elem_of_app Hle; [done|].
        apply list_elem_of_singleton in Hw0 as ->. lia.
    + destruct H as (Hw & Hs & _). by apply same.
  - destruct (RemoveWallet_tables u wid s) as [Hs [Hw|Hw]]; [by apply same|].
    unfold wallet_ids_ok. rewrite Hw, Hs. split_and!; try lia.
    + eapply sublist_NoDup; [exact Hnd|]. apply fmap_sublist, sublist_filter.
    + intros w0 [_ Hw0]%list_elem_of_filter. by apply Hb.
    + intros w0 [_ Hw0]%list_elem_of_filter _. done.
  - destruct (Hm wid eid). by apply same.
  - destruct (Hr raw). by apply same.
  - destruct Ha. by apply same.
  - destruct (Hg wid). by apply same.
Qed.

Lemma history_ids faults ops more :
  let s := history faults ops in
  let s' := history faults (ops ++ more) in
  wallet_ids_ok s ∧ wallet_ids_ok s'
  ∧ wallets_seq s <= wallets_seq s'
  ∧ ∀ w, w ∈ wallets s' → ID w <= wallets_seq s → w ∈ wallets s.
Proof.
  unfold history.
  assert (Hstart : wallet_ids_ok (fresh faults)).
  { split; [constructor|]. intros w H. by apply elem_of_nil in H. }
  assert (Hgen : ∀ l s0, wallet_ids_ok s0 →
            wallet_ids_ok (foldl exec s0 l)
            ∧ wallets_seq s0 <= wallets_seq (foldl exec s0 l)
            ∧ ∀ w, w ∈ wallets (foldl exec s0 l) → ID w <= wallets_seq s0 → w ∈ wallets s0).
  { induction l as [|op l IH]; intros s0 H0; simpl.
    - split_and!; try done; lia.
    - destruct (exec_ids s0 op H0) as (H1 & Hle & Hold).
      destruct (IH _ H1) as (H2 & Hle' & Hold').
      split_and!; [done|lia|].
      intros w Hw Hid. apply Hold; [|done]. apply Hold'; [done|lia]. }
  rewrite foldl_app.
  destruct (Hgen ops (fresh faults) Hstart) as (H1 & _).
  destruct (Hgen more _ H1) as (H2 & Hle & Hold). done.
Qed.

(** X9. In every database reached from an empty one by any calls of
    AddWallet, RemoveWallet, MarkEventProcessed and the wallet queries, under
    any fault schedule, wallet ids are distinct and positive; and an id is
    never handed out twice: whatever calls follow, a row with an id issued so
    far is a row that is in the table now. *)
Theorem wallet_ids_never_repeat (faults : nat → bool) (ops more : list Op) :
  let s := history faults ops in
  let s' := history faults (ops ++ more) in
  NoDup (ID <$> wallets s')
  ∧ (∀ w, w ∈ wallets s' → 0 < ID w)
  ∧ ∀ w, w ∈ wallets s' → ID w <= wallets_seq s → w ∈ wallets s.
Proof.
  intros s s'. destruct (history_ids faults ops more) as (_ & [Hnd Hb] & _ & Hold).
  split_and!; [done| |done]. intros w Hw. apply Hb in Hw. lia.
Qed.

Lemma RemoveWallet_healthy userID walletID s :
  faults s (stmts s) = false → faults s (S (stmts s)) = false →
  (RemoveWallet userID walletID s).1 = Ok tt
  ∧ wallets (RemoveWallet userID walletID s).2
    = filter (fun w => ¬ (UserID w = userID ∧ ID w = walletID)) (wallets s)
  ∧ processed_events (RemoveWallet userID walletID s).2
    = processed_events s ∖ filter (fun p : Z * string => p.1 = walletID) (processed_events s)
  ∧ faults (RemoveWallet userID walletID s).2 = faults s.
Proof.
  intros F1 F2. unfold RemoveWallet, stmt; simpl. rewrite F1; simpl. rewrite F2; simpl. done.
Qed.

Lemma RemoveWallet_ok_tables userID walletID s :
  (RemoveWallet userID walletID s).1 = Ok tt →
  wallets (RemoveWallet userID walletID s).2
    = filter (fun w => ¬ (UserID w = userID ∧ ID w = walletID)) (wallets s)
  ∧ faults (RemoveWallet userID walletID s).2 = faults s.
Proof.
  unfold RemoveWallet, stmt; simpl.
  destruct (faults s (stmts s)); simpl; [done|].
  destruct (faults s (S (stmts s))); simpl; done.
Qed.

Lemma filter_all {A} (P : A → Prop) `{∀ x, Decision (P x)} (l : list A) :
  (∀ x, x ∈ l → P x) → filter P l = l.
Proof.
  induction l as [|x l IH]; intros Hall; [done|].
  rewrite filter_cons, decide_True by (apply Hall, list_elem_of_here).
  rewrite IH; [done|]. intros y Hy. by apply Hall, list_elem_of_further.
Qed.

Lemma filter_none {A} (P : A → Prop) `{∀ x, Decision (P x)} (l : list A) :
  (∀ x, x ∈ l → ¬ P x) → filter P l = [].
Proof.
  induction l as [|x l IH]; intros Hall; [done|].
  rewrite filter_cons, decide_False by (apply Hall, list_elem_of_here).
  apply IH. intros y Hy. by apply Hall, list_elem_of_further.
Qed.

Lemma NoDup_ids_same (ws : list Wallet) w1 w2 :
  NoDup (ID <$> ws) → w1 ∈ ws → w2 ∈ ws → ID w1 = ID w2 → w1 = w2.
Proof.
  induction ws as [|x ws IH]; [by intros _ H; apply elem_of_nil in H|].
  rewrite fmap_cons. intros [Hx Hnd]%NoDup_cons H1 H2 Hid.
  apply elem_of_cons in H1 as [->|H1]; apply elem_of_cons in H2 as [->|H2]; try done.
  - exfalso. apply Hx. rewrite Hid. apply list_elem_of_fmap. by exists w2.
  - exfalso. apply Hx. rewrite <- Hid. apply list_elem_of_fmap. by exists w1.
  - by apply IH.
Qed.

(** X10. RemoveWallet deletes a wallet row only for its owner, yet deletes
    the ledger rows of the wallet id whoever asks. After a call by another
    user the wallet is still tracked and its dedup history is gone: the next
    delivery of an event starts a handler for it even if the event had been
    processed before. *)
Theorem removal_by_stranger_replays (userID : Z) (wl : Wallet)
    (payload : WebhookPayload) (event : Event) (w : World) :
  wl ∈ wallets (store w) → UserID wl ≠ userID →
  NoDup (ID <$> wallets (store w)) → (∀ n, faults (store w) n = false) →
  Event_ payload = Some event → EventID event ≠ "" → AccountID payload = AddressRaw wl →
  let r := RemoveWallet userID (ID wl) (store w) in
  r.1 = Ok tt
  ∧ wallets r.2 = wallets (store w)
  ∧ ∃ w2 later, processTransaction payload (with_store r.2 w) = Done w2
                ∧ handed (trace w2) = handed (trace w) ++ later
                ∧ (wl, event) ∈ later.
Proof.
  intros Hwl Hown Hnd Hf He Hid Hacc r.
  destruct (RemoveWallet_healthy userID (ID wl) (store w)) as (Hok & Hws & Hpe & Hfl);
    [apply Hf|apply Hf|]. fold r in Hok, Hws, Hpe, Hfl.
  assert (Hsame : wallets r.2 = wallets (store w)).
  { rewrite Hws. apply filter_all. intros x Hx [Hu Hi].
    apply Hown. rewrite <- Hu. f_equal. symmetry. by eapply NoDup_ids_same. }
  split; [done|]. split; [done|].
  assert (Htr : wl ∈ tracking (AccountID payload) (store (with_store r.2 w))).
  { unfold tracking, with_store; simpl. rewrite Hsame.
    apply list_elem_of_filter. done. }
  destruct (delivery_exact payload event (with_store r.2 w)) as (w2 & Hrun & Hh & _);
    try done.
  - intros n. simpl. rewrite Hfl. apply Hf.
  - simpl. by rewrite Hsame.
  - intros E. rewrite E in Htr. by apply elem_of_nil in Htr.
  - exists w2. eexists. split; [done|]. split; [exact Hh|].
    apply list_elem_of_fmap. exists wl. split; [done|].
    apply list_elem_of_filter. split; [|done].
    simpl. rewrite Hpe. intros Hin. apply elem_of_difference in Hin as [Hin Hn].
    apply Hn. by apply elem_of_filter.
Qed.

Lemma process_all_handed payloads :
  ∀ w w', process_all payloads w = Done w' →
    wallets (store w') = wallets (store w)
    ∧ ∃ later, trace w' = trace w ++ later
               ∧ ∀ wl ev, (wl, ev) ∈ handed later → wl ∈ wallets (store w).
Proof.
  induction payloads as [|p payloads IH]; intros w w'; simpl.
  { intros [= <-]. split; [done|]. exists []. rewrite app_nil_r. split; [done|].
    intros wl ev H. by apply elem_of_nil in H. }
  destruct (processTransaction p w) as [w1|] eqn:E; [|done]. intros Hrest.
  apply processTransaction_report in E as (n1 & T1 & W1 & _ & _ & _ & _ & _ & H1).
  apply IH in Hrest as (W2 & n2 & T2 & H2).
  split; [congruence|]. exists (n1 ++ n2). split; [by rewrite T2, T1, app_assoc|].
  intros wl ev. rewrite handed_app, elem_of_app. intros [Hin|Hin].
  - destruct (H1 wl ev Hin) as [Htr _]. by apply list_elem_of_filter in Htr as [_ ?].
  - rewrite <- W1. by eapply H2.
Qed.

(** X11. After a RemoveWallet that returns nil for a wallet id that belongs
    to the calling user (or to nobody), no delivery starts a handler for a
    wallet with that id any more. *)
Theorem removed_wallet_gets_nothing (userID walletID : Z) (w : World)
    (payloads : list WebhookPayload) (w' : World) :
  (∀ wl, wl ∈ wallets (store w) → ID wl = walletID → UserID wl = userID) →
  (RemoveWallet userID walletID (store w)).1 = Ok tt →
  process_all payloads (with_store (RemoveWallet userID walletID (store w)).2 w) = Done w' →
  ∃ later, trace w' = trace w ++ later
           ∧ ∀ wl ev, (wl, ev) ∈ handed later → ID wl ≠ walletID.
Proof.
  intros Hown Hok Hrun.
  destruct (RemoveWallet_ok_tables _ _ _ Hok) as [Hws _].
  apply process_all_handed in Hrun as (_ & later & T & H).
  exists later. split; [exact T|]. intros wl ev Hin Hid.
  apply H in Hin. simpl in Hin. rewrite Hws in Hin.
  apply list_elem_of_filter in Hin as [Hn Hwl]. apply Hn. split; [|done]. by apply Hown.
Qed.

(** X12. A wallet that AddWallet has just created starts with no dedup
    history: with a database that does not fail, the next delivery of any
    event for its raw address starts a handler for it. *)
Theorem new_wallet_has_no_history (userID : Z) (name raw display : string)
    (maxWallets : Z) (wl : Wallet) (payload : WebhookPayload) (event : Event) (w : World) :
  wallet_ids_ok (store w) → ledger_known (store w) →
  (∀ n, faults (store w) n = false) →
  (AddWallet userID name raw display maxWallets (store w)).1 = Ok wl →
  Event_ payload = Some event → EventID event ≠ "" → AccountID payload = raw →
  ∃ w2 later,
    processTransaction payload
      (with_store (AddWallet userID name raw display maxWallets (store w)).2 w) = Done w2
    ∧ handed (trace w2) = handed (trace w) ++ later
    ∧ (wl, event) ∈ later.
Proof.
  intros [Hnd Hb] Hknown Hf Hadd He Hid Hacc.
  pose proof (AddWallet_spec userID name raw display maxWallets (store w)) as H.
  cbv zeta in H.
  assert (Hfl : faults (AddWallet userID name raw display maxWallets (store w)).2
                = faults (store w)).
  { unfold AddWallet, stmt; simpl. rewrite !Hf. simpl. by destruct (_ <=? _). }
  destruct (AddWallet userID name raw display maxWallets (store w)) as [r s1].
  simpl in Hadd, Hfl. subst r.
  destruct H as (_ & Hrow & Hws & Hlt & _ & Hseq & _ & Hpe).
  assert (Htr : wl ∈ tracking (AccountID payload) (store (with_store s1 w))).
  { unfold tracking, with_store; simpl. rewrite Hws.
    apply list_elem_of_filter. split; [rewrite Hrow; by simpl|].
    apply elem_of_app. right. apply list_elem_of_here. }
  destruct (delivery_exact payload event (with_store s1 w)) as (w2 & Hrun & Hh & _);
    try done.
  - intros n. simpl. rewrite Hfl. apply Hf.
  - simpl. rewrite Hws, fmap_app. apply NoDup_app. split; [done|].
    split; [|apply NoDup_singleton].
    intros i [w0 [-> Hw0]]%list_elem_of_fmap Hi.
    apply list_elem_of_singleton in Hi. apply Hlt in Hw0. simpl in Hi. lia.
  - intros E. rewrite E in Htr. by apply elem_of_nil in Htr.
  - exists w2. eexists. split; [done|]. split; [exact Hh|].
    apply list_elem_of_fmap. exists wl. split; [done|].
    apply list_elem_of_filter. split; [|done].
    simpl. rewrite Hpe. intros Hin. apply Hknown in Hin. simpl in Hin. lia.
Qed.

Lemma GetWallet_spec walletID s :
  wallets (GetWallet walletID s).2 = wallets s
  ∧ processed_events (GetWallet walletID s).2 = processed_events s
  ∧ match (GetWallet walletID s).1 with
    | Ok w => w ∈ wallets s ∧ ID w = walletID
    | Err ErrNotFound =>
        faults s (stmts s) = false ∧ ∀ w, w ∈ wallets s → ID w ≠ walletID
    | Err _ => faults s (stmts s) = true
    end.
Proof.
  unfold GetWallet, stmt; simpl. destruct (faults s (stmts s)) eqn:F; simpl; [done|].
  destruct (filter (fun w => ID w = walletID) (wallets s)) as [|w l] eqn:E; simpl.
  - split; [done|]. split; [done|]. split; [done|]. intros w Hw Hid.
    assert (Hin : w ∈ filter (fun w => ID w = walletID) (wallets s))
      by (by apply list_elem_of_filter).
    rewrite E in Hin. by apply elem_of_nil in Hin.
  - split; [done|]. split; [done|].
    assert (Hin : w ∈ filter (fun w => ID w = walletID) (wallets s))
      by (rewrite E; apply list_elem_of_here).
    apply list_elem_of_filter in Hin as [? ?]. done.
Qed.

(** X13. GetWallet changes no table; it returns a row of the table with the
    id asked for, ErrNotFound exactly when the query ran and no row has the
    id, and another error only when the query failed. *)
Theorem GetWallet_outcome (walletID : Z) (s : Storage) :
  wallets (GetWallet walletID s).2 = wallets s
  ∧ processed_events (GetWallet walletID s).2 = processed_events s
  ∧ match (GetWallet walletID s).1 with
    | Ok w => w ∈ wallets s ∧ ID w = walletID
    | Err ErrNotFound =>
        faults s (stmts s) = false ∧ ∀ w, w ∈ wallets s → ID w ≠ walletID
    | Err _ => faults s (stmts s) = true
    end.
Proof. apply GetWallet_spec. Qed.

(** X14. Round trip. The wallet AddWallet returns is the one GetWallet finds
    under its id, and GetWalletsByRaw for its raw address returns the wallets
    that tracked the address before followed by the new one, when these
    queries do not fail. *)
Theorem AddWallet_then_lookup (userID : Z) (name raw display : string)
    (maxWallets : Z) (wl : Wallet) (s : Storage) :
  (AddWallet userID name raw display maxWallets s).1 = Ok wl →
  let s1 := (AddWallet userID name raw display maxWallets s).2 in
  faults s1 (stmts s1) = false →
  (GetWallet (ID wl) s1).1 = Ok wl
  ∧ (GetWalletsByRaw raw s1).1
    = Ok (filter (fun w => AddressRaw w = raw) (wallets s) ++ [wl]).
Proof.
  intros Hadd s1 Hf.
  pose proof (AddWallet_spec userID name raw display maxWallets s) as H. cbv zeta in H.
  subst s1. destruct (AddWallet userID name raw display maxWallets s) as [r s1].
  simpl in *. subst r. destruct H as (_ & Hrow & Hws & Hlt & _).
  split.
  - unfold GetWallet, stmt; simpl. rewrite Hf. simpl. rewrite Hws, filter_app.
    rewrite filter_none.
    + simpl. rewrite filter_cons, decide_True by done. done.
    + intros w0 Hw0 Hid. apply Hlt in Hw0. lia.
  - unfold GetWalletsByRaw, stmt; simpl. rewrite Hf. simpl. rewrite Hws, filter_app.
    do 2 f_equal. rewrite filter_cons, decide_True; [done|]. rewrite Hrow. done.
Qed.

End Wallets.

Lemma sample_store_ids_ok : wallet_ids_ok sample_store.
Proof.
  split; [apply (bool_decide_unpack _); vm_compute; exact I|].
  intros wl Hwl. unfold sample_store in Hwl. simpl in Hwl.
  repeat (apply elem_of_cons in Hwl as [->|Hwl]); try (vm_compute; split; [reflexivity|discriminate]).
  by apply elem_of_nil in Hwl.
Defined.

Lemma sample_store_ledger_known : ledger_known sample_store.
Proof.
  intros p Hp. unfold sample_store, sample_ledger in Hp. simpl in Hp.
  apply elem_of_union in Hp as [Hp|Hp];
    [apply elem_of_union in Hp as [Hp|Hp]|];
    apply elem_of_singleton in Hp; subst p; vm_compute; discriminate.
Defined.

Lemma removal_by_stranger_replays_witness :
  (1, "e1") ∈ processed_events sample_store
  ∧ ∃ w2 later,
      webhook.processTransaction replayed_push
        (with_store (RemoveWallet 8 1 sample_store).2 sample_world) = Done w2
      ∧ handed (trace w2) = handed (trace sample_world) ++ later
      ∧ (alice, mkEvent "e1" 1690000000 false) ∈ later.
Proof.
  split; [apply (bool_decide_unpack _); vm_compute; exact I|].
  destruct (removal_by_stranger_replays 8 alice replayed_push
              (mkEvent "e1" 1690000000 false) sample_world) as (_ & _ & H).
  - apply list_elem_of_here.
  - vm_compute. discriminate.
  - apply sample_store_ids_ok.
  - intros n. reflexivity.
  - reflexivity.
  - discriminate.
  - reflexivity.
  - exact H.
Defined.

Lemma removed_wallet_gets_nothing_witness :
  let w' := world_of (webhook.process_all [fresh_push]
                        (with_store (RemoveWallet 7 1 sample_store).2 sample_world)) in
  ∃ later, trace w' = trace sample_world ++ later
           ∧ ∀ wl ev, (wl, ev) ∈ handed later → ID wl ≠ 1.
Proof.
  intros w'.
  apply (removed_wallet_gets_nothing 7 1 sample_world [fresh_push] w').
  - intros wl Hwl. unfold sample_world, sample_store in Hwl. simpl in Hwl.
    repeat (apply elem_of_cons in Hwl as [->|Hwl]);
      try (first [by intros [=] | intros _; reflexivity]).
    by apply elem_of_nil in Hwl.
  - reflexivity.
  - vm_compute. reflexivity.
Defined.

Lemma new_wallet_has_no_history_witness :
  ∃ w2 later,
    webhook.processTransaction dave_push
      (with_store (AddWallet 9 "dave" "0:dddddddddddd" "UQdddddddddddd" 3 sample_store).2
         sample_world) = Done w2
    ∧ handed (trace w2) = handed (trace sample_world) ++ later
    ∧ (mkWallet 4 9 "dave" "0:dddddddddddd" "UQdddddddddddd",
       mkEvent "d1" 1700000500 false) ∈ later.
Proof.
  apply (new_wallet_has_no_history 9 "dave" "0:dddddddddddd" "UQdddddddddddd" 3
           (mkWallet 4 9 "dave" "0:dddddddddddd" "UQdddddddddddd") dave_push
           (mkEvent "d1" 1700000500 false) sample_world).
  - apply sample_store_ids_ok.
  - apply sample_store_ledger_known.
  - intros n. reflexivity.
  - reflexivity.
  - reflexivity.
  - discriminate.
  - reflexivity.
Defined.

Lemma AddWallet_then_lookup_witness :
  let s1 := (AddWallet 8 "spare" "0:aaaaaaaaaaaa" "UQaaaaaaaaaa" 3 sample_store).2 in
  (GetWalletsByRaw "0:aaaaaaaaaaaa" s1).1
  = Ok [alice; bob; mkWallet 4 8 "spare" "0:aaaaaaaaaaaa" "UQaaaaaaaaaa"].
Proof.
  intros s1.
  apply (AddWallet_then_lookup 8 "spare" "0:aaaaaaaaaaaa" "UQaaaaaaaaaa" 3
           (mkWallet 4 8 "spare" "0:aaaaaaaaaaaa" "UQaaaaaaaaaa") sample_store);
    reflexivity.
Defined.

(** ** The manager: registration and repeated ticks *)

Section Reconcile.
Import webhook.

Lemma Init_spec (up : Registrations) (m : Manager) :
  let r := Init up m in
  endpoint r.1.2 = endpoint m ∧ subscribed r.1.2 = subscribed m
  ∧ (endpoint m = "" → r = (Ok tt, m, []))
  ∧ (is_ok r.1.1 = false → r.1.2 = m)
  ∧ (endpoint m ≠ "" → r.1.1 = Ok tt →
     (∃ listed i wh,
        list_webhooks up = Ok listed ∧ listed !! i = Some wh
        ∧ Endpoint wh = endpoint m
        ∧ (∀ j wh', listed !! j = Some wh' → Endpoint wh' = endpoint m → (i <= j)%nat)
        ∧ webhookID r.1.2 = webhook_id wh
        ∧ r.2 = [CallListWebhooks])
     ∨ (∃ listed wh,
          list_webhooks up = Ok listed
          ∧ (∀ wh', wh' ∈ listed → Endpoint wh' ≠ endpoint m)
          ∧ create_webhook up (endpoint m) = Ok wh
          ∧ webhookID r.1.2 = webhook_id wh
          ∧ r.2 = [CallListWebhooks; CallCreateWebhook (endpoint m)])).
Proof.
  unfold Init. case_bool_decide as Hep; simpl.
  { split_and!; try done. }
  destruct (list_webhooks up) as [listed|e] eqn:Hl; simpl.
  2:{ split_and!; try done. }
  destruct (list_find (fun wh => Endpoint wh = endpoint m) listed) as [[i wh]|] eqn:Hfind;
    simpl.
  { apply list_find_Some in Hfind as (Hi & Hwh & Hfirst).
    split_and!; try done. intros _ _. left. exists listed, i, wh. split_and!; try done.
    intros j wh' Hj Hwh'. destruct (decide (i <= j)%nat) as [|Hlt]; [done|].
    exfalso. apply (Hfirst j wh' Hj); [lia|done]. }
  apply list_find_None in Hfind.
  destruct (create_webhook up (endpoint m)) as [wh|e] eqn:Hc; simpl.
  - split_and!; try done. intros _ _. right. exists listed, wh. split_and!; try done.
    intros wh' Hin. by apply (proj1 (Forall_forall _ _) Hfind).
  - split_and!; try done.
Qed.

(** X15. Init finds or creates. With an empty endpoint it asks nothing and
    changes nothing. Otherwise, when it returns nil, the manager holds either
    the id of the first listed registration whose endpoint is the configured
    one, and nothing was created, or, when no listed registration has that
    endpoint, the id returned by the one create request for it. When it
    returns an error the manager is unchanged. The cache and the endpoint are
    never touched. *)
Theorem Init_finds_or_creates (up : Registrations) (m : Manager) :
  let r := Init up m in
  endpoint r.1.2 = endpoint m ∧ subscribed r.1.2 = subscribed m
  ∧ (endpoint m = "" → r = (Ok tt, m, []))
  ∧ (is_ok r.1.1 = false → r.1.2 = m)
  ∧ (endpoint m ≠ "" → r.1.1 = Ok tt →
     (∃ listed i wh,
        list_webhooks up = Ok listed ∧ listed !! i = Some wh
        ∧ Endpoint wh = endpoint m
        ∧ (∀ j wh', listed !! j = Some wh' → Endpoint wh' = endpoint m → (i <= j)%nat)
        ∧ webhookID r.1.2 = webhook_id wh
        ∧ r.2 = [CallListWebhooks])
     ∨ (∃ listed wh,
          list_webhooks up = Ok listed
          ∧ (∀ wh', wh' ∈ listed → Endpoint wh' ≠ endpoint m)
          ∧ create_webhook up (endpoint m) = Ok wh
          ∧ webhookID r.1.2 = webhook_id wh
          ∧ r.2 = [CallListWebhooks; CallCreateWebhook (endpoint m)])).
Proof. apply Init_spec. Qed.

Lemma ticks_without_webhook n :
  ∀ m w, webhookID m = 0 → ticks n m w = (m, w).
Proof.
  induction n as [|n IH]; intros m w Hid; [done|].
  cbn [ticks]. unfold sync. rewrite Hid. simpl. by apply IH.
Qed.

(** X16. A manager whose Init was skipped for want of an endpoint, or failed,
    keeps webhook id 0, and then no tick does anything: no wallet query, no
    upstream request, no log line, and the cache stays empty. *)
Theorem manager_without_webhook_never_syncs (up : Registrations) (ep : string)
    (n : nat) (w : World) :
  ep = "" ∨ is_ok (Init up (NewManager ep)).1.1 = false →
  let m := (Init up (NewManager ep)).1.2 in
  webhookID m = 0 ∧ subscribed m = ∅ ∧ ticks n m w = (m, w).
Proof.
  intros H m.
  assert (Hm : m = NewManager ep).
  { destruct (Init_spec up (NewManager ep)) as (_ & _ & He & Hf & _).
    subst m. destruct H as [->|H]; [by rewrite He|by apply Hf]. }
  rewrite Hm. split; [done|]. split; [done|]. by apply ticks_without_webhook.
Qed.

Lemma empty_of_set (l : list string) : (list_to_set l : gset string) = ∅ → l = [].
Proof.
  destruct l as [|a l]; [done|]. intros H.
  assert (a ∈ (list_to_set (a :: l) : gset string)) as Ha
    by (apply elem_of_list_to_set, list_elem_of_here).
  rewrite H in Ha. by apply not_elem_of_empty in Ha.
Qed.

(** One tick of an initialised manager whose cache already equals storage. *)
Lemma settled_tick m w :
  webhookID m ≠ 0 → cache_ok m → faults (store w) (stmts (store w)) = false →
  dom (subscribed m) = list_to_set (AddressRaw <$> wallets (store w)) →
  ∃ w', sync m w = (Ok tt, (m, w'))
        ∧ calls w' = calls w ∧ upstream w' = upstream w
        ∧ wallets (store w') = wallets (store w)
        ∧ faults (store w') = faults (store w)
        ∧ bulk_calls (trace w') = bulk_calls (trace w).
Proof.
  intros Hid Hok Hf Hdom.
  unfold sync, on_store, GetAllWallets, stmt. apply Z.eqb_neq in Hid. rewrite Hid.
  cbn [fst snd]. rewrite Hf. cbn [wallets].
  assert (HA : find_toAdd (build_needed (wallets (store w))) (subscribed m) = []).
  { apply empty_of_set. rewrite toAdd_set by done. rewrite Hdom. set_solver. }
  assert (HR : find_toRemove (build_needed (wallets (store w))) (subscribed m) = []).
  { apply empty_of_set. rewrite toRemove_set. rewrite Hdom. set_solver. }
  rewrite HA, HR. simpl. eexists. split; [reflexivity|]. simpl.
  split_and!; try done. unfold bulk_calls. by rewrite filter_app, app_nil_r.
Qed.

Lemma settled_ticks n :
  ∀ m w, webhookID m ≠ 0 → cache_ok m → (∀ k, faults (store w) k = false) →
    dom (subscribed m) = list_to_set (AddressRaw <$> wallets (store w)) →
    (ticks n m w).1 = m
    ∧ calls (ticks n m w).2 = calls w
    ∧ wallets (store (ticks n m w).2) = wallets (store w)
    ∧ bulk_calls (trace (ticks n m w).2) = bulk_calls (trace w).
Proof.
  induction n as [|n IH]; intros m w Hid Hok Hf Hdom; [done|].
  cbn [ticks].
  destruct (settled_tick m w Hid Hok (Hf _) Hdom) as (w' & E & C & U & W & F & B).
  rewrite E. destruct (IH m w' Hid Hok) as (H1 & H2 & H3 & H4).
  - intros k. rewrite F. apply Hf.
  - by rewrite W.
  - split_and!; congruence.
Qed.

(** X17. Once the cache of an initialised manager holds exactly the raw
    addresses in storage, further ticks over a database that does not fail
    change nothing: however many follow, the manager stays the same and no
    request goes to the upstream. *)
Theorem settled_cache_stays (n : nat) (m : Manager) (w : World) :
  webhookID m ≠ 0 → cache_ok m → (∀ k, faults (store w) k = false) →
  dom (subscribed m) = list_to_set (AddressRaw <$> wallets (store w)) →
  (ticks n m w).1 = m
  ∧ calls (ticks n m w).2 = calls w
  ∧ wallets (store (ticks n m w).2) = wallets (store w)
  ∧ bulk_calls (trace (ticks n m w).2) = bulk_calls (trace w).
Proof. apply settled_ticks. Qed.



Lemma bulk_calls_app (l k : list Effect) : bulk_calls (l ++ k) = bulk_calls l ++ bulk_calls k.
Proof. apply filter_app. Qed.

(** X19. The requests of a tick. A tick of an uninitialised manager, or one
    whose wallet query fails, sends nothing. Any other tick sends at most one
    subscribe request followed by at most one unsubscribe request, each only
    when its address list is not empty, and both for the manager's webhook
    id. *)
Theorem tick_requests (m : Manager) (w : World) :
  let toAdd := find_toAdd (build_needed (wallets (store w))) (subscribed m) in
  let toRemove := find_toRemove (build_needed (wallets (store w))) (subscribed m) in
  ∃ new, trace (sync m w).2.2 = trace w ++ new
    ∧ calls (sync m w).2.2 = (calls w + length (bulk_calls new))%nat
    ∧ bulk_calls new
      = if (webhookID m =? 0) || faults (store w) (stmts (store w)) then []
        else match toAdd with [] => [] | _ => [ESubscribe (webhookID m) toAdd] end
             ++ match toRemove with [] => [] | _ => [EUnsubscribe (webhookID m) toRemove] end.
Proof.
  intros toAdd toRemove. unfold sync, on_store, GetAllWallets, stmt.
  destruct (webhookID m =? 0); cbn [fst snd orb].
  { exists []. rewrite app_nil_r. split_and!; try done; simpl; lia. }
  destruct (faults (store w) (stmts (store w))); cbn [fst snd wallets].
  { exists [EGetAllWallets]. split_and!; try done; simpl; lia. }
  fold toAdd toRemove.
  unfold sync_add, sync_remove, SubscribeAccounts, UnsubscribeAccounts, request, log, emit.
  destruct toAdd as [|a la], toRemove as [|b lb]; cbn [length Nat.ltb Nat.leb fst snd].
  - exists [EGetAllWallets]. split_and!; try done; simpl; lia.
  - destruct (unsubscribe_at _ _ _ _); cbn [fst snd trace calls];
      eexists; (split; [by rewrite <- !app_assoc|]); simpl; split; try done; try lia.
  - destruct (subscribe_at _ _ _ _); cbn [fst snd trace calls];
      eexists; (split; [by rewrite <- !app_assoc|]); simpl; split; try done; try lia.
  - destruct (subscribe_at _ _ _ _); cbn [fst snd trace calls webhookID upstream];
      destruct (unsubscribe_at _ _ _ _); cbn [fst snd trace calls];
      eexists; (split; [by rewrite <- !app_assoc|]); simpl; split; try done; try lia.
Qed.

End Reconcile.

Lemma manager_without_webhook_never_syncs_witness :
  let m := (webhook.Init unreachable_registry
              (webhook.NewManager "https://bot.example/webhook")).1.2 in
  webhook.ticks 3 m sample_world = (m, sample_world).
Proof.
  intros m.
  apply (manager_without_webhook_never_syncs unreachable_registry
           "https://bot.example/webhook" 3 sample_world).
  right. reflexivity.
Defined.

Lemma settled_cache_stays_witness :
  calls (webhook.ticks 5 settled_manager sample_world).2 = calls sample_world
  ∧ (webhook.ticks 5 settled_manager sample_world).1 = settled_manager.
Proof.
  assert (H1 : webhook.webhookID settled_manager ≠ 0) by (vm_compute; discriminate).
  assert (H2 : webhook.cache_ok settled_manager)
    by (apply (bool_decide_unpack _); vm_compute; exact I).
  assert (H3 : ∀ k, faults (store sample_world) k = false) by (intros k; reflexivity).
  assert (H4 : dom (webhook.subscribed settled_manager)
               = list_to_set (AddressRaw <$> wallets (store sample_world)))
    by (apply (bool_decide_unpack _); vm_compute; exact I).
  destruct (settled_cache_stays 5 settled_manager sample_world H1 H2 H3 H4)
    as (Hm & Hc & _).
  split; [exact Hc|exact Hm].
Defined.


(** ** The rate limiter: how long, how many *)

Section Pace.

(** X20. The throttle holds a call back no longer than needed: it is let go
    no earlier than its arrival and than one interval after the last call,
    and no later than that plus the overshoot of the sleep; with exact sleeps
    the release instant is max(now, lastCall + minDelay). *)
Theorem throttle_release_time (c : Client) (now : Z) (oversleep : N) :
  lastCall c <= now → 0 <= minDelay c <= maxDuration →
  let t := (throttle now oversleep c).1 in
  Z.max now (lastCall c + minDelay c) <= t
  ∧ t <= Z.max now (lastCall c + minDelay c) + Z.of_N oversleep
  ∧ t - now <= minDelay c + Z.of_N oversleep.
Proof.
  intros Hmono Hdelay.
  destruct (throttle_spec c now oversleep Hmono Hdelay) as (_ & _ & Hnow & Hgap & Hfree & Hsleep).
  cbv zeta. destruct (Z_lt_le_dec (now - lastCall c) (minDelay c)) as [Hlt|Hge].
  - rewrite (Hsleep Hlt). lia.
  - rewrite (Hfree Hge). lia.
Qed.

Lemma run_length (calls : list Call) : ∀ free c, length (run free c calls) = length calls.
Proof.
  induction calls as [|k calls IH]; intros free c; [done|].
  cbn [run]. destruct (doRequest _ _ _ c) as [t c']. simpl. by rewrite IH.
Qed.

Lemma run_spaced_far (calls : list Call) (free : Z) (c : Client) :
  lastCall c <= free → 0 <= minDelay c <= maxDuration →
  ∀ k i a b, run free c calls !! i = Some a → run free c calls !! (i + k)%nat = Some b →
    issued a + Z.of_nat k * minDelay c <= issued b.
Proof.
  intros Hfree Hdelay.
  destruct (run_spaced calls free c Hfree Hdelay) as [_ Hadj].
  induction k as [|k IH]; intros i a b Ha Hb.
  - rewrite Nat.add_0_r in Hb. rewrite Ha in Hb. injection Hb as <-. lia.
  - destruct (run free c calls !! (i + k)%nat) as [m|] eqn:Hm.
    + specialize (IH i a m Ha Hm).
      replace (i + S k)%nat with (S (i + k)) in Hb by lia.
      specialize (Hadj (i + k)%nat m b Hm Hb). lia.
    + apply lookup_ge_None in Hm. apply lookup_lt_Some in Hb. lia.
Qed.

(** X21. Pace. Through a client made by NewClient, the request sent k places
    after another one is sent at least k times 250ms later; so n requests
    take at least (n - 1) times 250ms, however the callers arrive. *)
Theorem requests_paced (boot : Z) (calls : list Call) (k i : nat) (a b : Timing) :
  0 <= boot →
  run boot NewClient calls !! i = Some a →
  run boot NewClient calls !! (i + k)%nat = Some b →
  issued a + Z.of_nat k * (250 * Millisecond) <= issued b.
Proof.
  intros Hboot. apply (run_spaced_far calls boot NewClient); [done|].
  unfold NewClient, maxDuration, Millisecond; simpl. lia.
Qed.

Lemma spaced_after (l : list Call) :
  ∀ d last, 0 <= d → spaced d last l → Forall (fun x => last <= arrive x) l.
Proof.
  induction l as [|x l IHl]; intros d last Hd Hs; [constructor|].
  cbn [spaced] in Hs. destruct Hs as [Hx Hl]. constructor; [lia|].
  eapply Forall_impl; [apply (IHl d (arrive x) Hd Hl)|]. intros y Hy. simpl in *. lia.
Qed.

Lemma run_unhindered (calls : list Call) :
  ∀ (free : Z) (c : Client),
    lastCall c <= free → 0 <= minDelay c <= maxDuration →
    spaced (minDelay c) (lastCall c) calls →
    Forall (fun k => free <= arrive k) calls →
    issued <$> run free c calls = arrive <$> calls.
Proof.
  induction calls as [|k calls IH]; intros free c Hfree Hdelay Hsp Hall; [done|].
  cbn [run]. unfold doRequest. cbn [spaced] in Hsp. destruct Hsp as [Hk Hsp].
  apply Forall_cons in Hall as [Hk' Hall].
  pose proof (throttle_spec c (Z.max (arrive k) free) (oversleep_of k)) as T.
  destruct (throttle (Z.max (arrive k) free) (oversleep_of k) c) as [t c'].
  cbn [fst snd] in T. destruct T as (Hlast & Hmin & _ & _ & Hnow & _); [lia|done|].
  assert (Ht : t = arrive k) by (rewrite Hnow; lia).
  rewrite !fmap_cons. cbn [issued]. rewrite Ht in *. f_equal.
  apply IH.
  - rewrite Hlast. lia.
  - by rewrite Hmin.
  - by rewrite Hlast, Hmin.
  - eapply Forall_impl; [exact (spaced_after calls (minDelay c) (arrive k) (proj1 Hdelay) Hsp)|].
    done.
Qed.

(** X22. The throttle does not slow down callers that keep the interval
    themselves: when every call arrives at least one interval after the call
    before it, each request is sent at the instant its call arrives. *)
Theorem spaced_callers_not_delayed (free : Z) (c : Client) (calls : list Call) :
  lastCall c <= free → 0 <= minDelay c <= maxDuration →
  spaced (minDelay c) (lastCall c) calls →
  Forall (fun k => free <= arrive k) calls →
  issued <$> run free c calls = arrive <$> calls.
Proof. apply run_unhindered. Qed.

End Pace.

Lemma throttle_release_time_witness :
  let t := (throttle (100 * Millisecond) 7 NewClient).1 in
  250 * Millisecond <= t ∧ t <= 250 * Millisecond + 7.
Proof.
  intros t.
  assert (H1 : lastCall NewClient <= 100 * Millisecond) by (vm_compute; discriminate).
  assert (H2 : 0 <= minDelay NewClient <= maxDuration)
    by (split; vm_compute; discriminate).
  destruct (throttle_release_time NewClient (100 * Millisecond) 7 H1 H2) as (Hlo & Hhi & _).
  split; [exact Hlo|exact Hhi].
Defined.

Lemma requests_paced_witness :
  let calls := [mkCall 500 0 300000000; mkCall 500 7 20000000; mkCall 900 0 20000000] in
  run 0 NewClient calls !! 0%nat = Some (mkTiming 250000000 550000000)
  ∧ run 0 NewClient calls !! 2%nat = Some (mkTiming 750000007 770000007)
  ∧ 250000000 + 2 * (250 * Millisecond) <= 750000007.
Proof.
  intros calls.
  assert (Ha : run 0 NewClient calls !! 0%nat = Some (mkTiming 250000000 550000000))
    by (vm_compute; reflexivity).
  assert (Hb : run 0 NewClient calls !! (0 + 2)%nat = Some (mkTiming 750000007 770000007))
    by (vm_compute; reflexivity).
  split; [exact Ha|]. split; [exact Hb|].
  apply (requests_paced 0 calls 2 0 _ _ (Z.le_refl 0) Ha Hb).
Defined.

Lemma spaced_callers_not_delayed_witness :
  let calls := [mkCall 300000000 9 20000000; mkCall 600000000 9 400000000;
                mkCall 850000000 9 20000000] in
  issued <$> run 100 NewClient calls = [300000000; 600000000; 850000000].
Proof.
  intros calls.
  apply (spaced_callers_not_delayed 100 NewClient calls).
  - vm_compute. discriminate.
  - split; vm_compute; discriminate.
  - vm_compute. repeat split; discriminate.
  - repeat constructor; vm_compute; discriminate.
Defined.

(** ** Strings: shortening and parsing *)

Section Strings.

Lemma length_append (s1 s2 : string) :
  String.length (s1 +:+ s2) = (String.length s1 + String.length s2)%nat.
Proof. induction s1 as [|c s1 IH]; simpl; [done|by rewrite IH]. Qed.

Lemma length_substring (s : string) :
  ∀ n m, (n + m <= String.length s)%nat → String.length (String.substring n m s) = m.
Proof.
  induction s as [|c s IH]; intros n m H; simpl in *.
  - destruct n, m; simpl; lia.
  - destruct n as [|n].
    + destruct m as [|m]; simpl; [done|]. rewrite IH; [done|lia].
    + apply IH. lia.
Qed.

Lemma substring_append_head (s1 s2 : string) :
  String.substring 0 (String.length s1) (s1 +:+ s2) = s1.
Proof. induction s1 as [|c s1 IH]; simpl; [by destruct s2|by rewrite IH]. Qed.

Lemma wrap64_small (z : Z) : - 2 ^ 63 <= z < 2 ^ 63 → wrap64 z = z.
Proof. intros H. unfold wrap64. rewrite Z.mod_small; lia. Qed.

Lemma length_list_ascii (s : string) :
  length (String.list_ascii_of_string s) = String.length s.
Proof. induction s as [|c s IH]; simpl; [done|by rewrite IH]. Qed.

(** X23. The hash written to the log is cut to the first [n] bytes and three
    dots: a string of at most [n] bytes is kept as it is, a longer one gives
    exactly [n + 3] bytes that start with its first [n] bytes, so a string
    of [n + 1] or [n + 2] bytes comes out longer than it was. *)
Theorem truncate_length (s : string) (n : nat) :
  (String.length (webhook.truncate s n) <= n + 3)%nat
  ∧ ((String.length s <= n)%nat → webhook.truncate s n = s)
  ∧ ((n < String.length s)%nat →
       String.length (webhook.truncate s n) = (n + 3)%nat
       ∧ String.substring 0 n (webhook.truncate s n) = String.substring 0 n s).
Proof.
  unfold webhook.truncate.
  destruct (Nat.leb_spec (String.length s) n) as [Hle|Hgt].
  - split_and!; [lia|done|lia].
  - assert (Hlen : String.length (String.substring 0 n s) = n)
      by (apply length_substring; lia).
    assert (Hall : String.length (String.substring 0 n s +:+ "...") = (n + 3)%nat)
      by (rewrite length_append, Hlen; done).
    split_and!; [lia|lia|]. intros _. split; [done|].
    rewrite <- Hlen at 1. apply substring_append_head.
Qed.

Lemma ShortAddr_cases (addr : string) (n : Z) :
  - 2 ^ 62 <= n <= 2 ^ 62 - 2 → addr ≠ "" →
  Z.of_nat (String.length addr) < 2 ^ 63 →
  let len := Z.of_nat (String.length addr) in
  (len < n * 2 + 3 → ShortAddr addr n = Done addr)
  ∧ (n * 2 + 3 <= len → n < 0 → ShortAddr addr n = Panic)
  ∧ (n * 2 + 3 <= len → 0 <= n →
       ShortAddr addr n
       = Done (String.substring 0 (Z.to_nat n) addr +:+ "..."
               +:+ String.substring (String.length addr - Z.to_nat n) (Z.to_nat n) addr)).
Proof.
  intros Hn Hne Hbig len. unfold ShortAddr.
  rewrite bool_decide_eq_false_2 by done.
  rewrite (wrap64_small (n * 2)) by lia. rewrite (wrap64_small (n * 2 + 3)) by lia.
  fold len. destruct (Z.ltb_spec len (n * 2 + 3)) as [Hlt|Hge].
  - split; [done|]. split; intros; lia.
  - split; [lia|]. split.
    + intros _ Hneg. unfold slice.
      destruct (Z.leb_spec 0 n) as [|_]; [lia|]. by rewrite andb_false_r.
    + intros _ Hpos. unfold slice.
      fold len. rewrite (wrap64_small (len - n)) by lia.
      replace (0 <=? 0) with true by done.
      destruct (Z.leb_spec 0 n) as [_|]; [|lia].
      destruct (Z.leb_spec n len) as [_|]; [|lia].
      destruct (Z.leb_spec 0 (len - n)) as [_|]; [|lia].
      destruct (Z.leb_spec (len - n) len) as [_|]; [|lia].
      destruct (Z.leb_spec len len) as [_|]; [|lia].
      simpl. rewrite Z.sub_0_r.
      replace (Z.to_nat (len - n)) with (String.length addr - Z.to_nat n)%nat by lia.
      replace (Z.to_nat (len - (len - n))) with (Z.to_nat n) by lia.
      done.
Qed.

Lemma substring_append_skip (s1 s2 : string) (k m : nat) :
  String.substring (String.length s1 + k) m (s1 +:+ s2) = String.substring k m s2.
Proof. induction s1 as [|c s1 IH]; simpl; done. Qed.

Lemma substring_all (s : string) : String.substring 0 (String.length s) s = s.
Proof. induction s as [|c s IH]; simpl; [done|by rewrite IH]. Qed.

Lemma substring_none (s : string) : String.substring 0 0 s = "".
Proof. by destruct s. Qed.

Lemma length_nonempty (s : string) : s ≠ "" → (0 < String.length s)%nat.
Proof. destruct s; simpl; [done|lia]. Qed.

(** X24. [ShortAddr] panics exactly when it is given a negative [n] and an
    address that is not empty: the empty address gives "unknown" whatever
    [n] is, and with [n] at least 0 every address gets a result. *)
Theorem ShortAddr_panics_iff (addr : string) (n : Z) :
  - 2 ^ 62 <= n <= 2 ^ 62 - 2 → Z.of_nat (String.length addr) < 2 ^ 63 →
  ShortAddr addr n = Panic ↔ addr ≠ "" ∧ n < 0.
Proof.
  intros Hn Hbig. destruct (decide (addr = "")) as [->|Hne].
  { split; [done|]. by intros [? _]. }
  pose proof (length_nonempty addr Hne) as Hlen.
  destruct (ShortAddr_cases addr n Hn Hne Hbig) as (Hsame & Hpanic & Hcut).
  split.
  - intros HP. split; [done|].
    destruct (Z_lt_le_dec n 0) as [|Hpos]; [done|]. exfalso.
    destruct (Z_lt_le_dec (Z.of_nat (String.length addr)) (n * 2 + 3)) as [Hlt|Hge].
    + rewrite (Hsame Hlt) in HP. discriminate.
    + rewrite (Hcut Hge Hpos) in HP. discriminate.
  - intros [_ Hneg]. apply Hpanic; lia.
Qed.

(** X25. With [n] at least 0, an address shorter than [2n + 3] bytes is
    returned as it is, and a longer one is cut to exactly [2n + 3] bytes:
    its first [n] bytes, three dots, its last [n] bytes. The result is never
    longer than the address. *)
Theorem ShortAddr_shortens (addr : string) (n : Z) :
  0 <= n <= 2 ^ 62 - 2 → Z.of_nat (String.length addr) < 2 ^ 63 → addr ≠ "" →
  ∃ r, ShortAddr addr n = Done r
    ∧ (String.length r <= String.length addr)%nat
    ∧ (Z.of_nat (String.length addr) < n * 2 + 3 → r = addr)
    ∧ (n * 2 + 3 <= Z.of_nat (String.length addr) →
         Z.of_nat (String.length r) = n * 2 + 3
         ∧ String.substring 0 (Z.to_nat n) r = String.substring 0 (Z.to_nat n) addr
         ∧ String.substring (Z.to_nat n) 3 r = "..."
         ∧ String.substring (Z.to_nat n + 3) (Z.to_nat n) r
           = String.substring (String.length addr - Z.to_nat n) (Z.to_nat n) addr).
Proof.
  intros Hn Hbig Hne.
  destruct (ShortAddr_cases addr n ltac:(lia) Hne Hbig) as (Hsame & _ & Hcut).
  destruct (Z_lt_le_dec (Z.of_nat (String.length addr)) (n * 2 + 3)) as [Hlt|Hge].
  { exists addr. split_and!; [by apply Hsame|done|done|lia]. }
  eexists. split; [apply Hcut; lia|].
  set (h := String.substring 0 (Z.to_nat n) addr).
  set (t := String.substring (String.length addr - Z.to_nat n) (Z.to_nat n) addr).
  assert (Hh : String.length h = Z.to_nat n) by (apply length_substring; lia).
  assert (Ht : String.length t = Z.to_nat n) by (apply length_substring; lia).
  assert (Hl : String.length (h +:+ "..." +:+ t) = (Z.to_nat n + (3 + Z.to_nat n))%nat)
    by (rewrite !length_append, Hh, Ht; done).
  split_and!; [lia|lia|]. intros _. split_and!.
  - lia.
  - rewrite <- Hh at 1. apply substring_append_head.
  - rewrite <- (Nat.add_0_r (Z.to_nat n)), <- Hh.
    rewrite substring_append_skip. simpl. by rewrite substring_none.
  - rewrite <- Hh at 1. rewrite substring_append_skip.
    change 3%nat with (String.length "...") at 1.
    rewrite <- (Nat.add_0_r (String.length "...")), substring_append_skip.
    rewrite <- Ht at 1. apply substring_all.
Qed.

Lemma range_runes_ascii (bs : list Z) :
  ∀ fuel, (length bs <= fuel)%nat → Forall (fun b => b < 128) bs → range_runes fuel bs = bs.
Proof.
  induction bs as [|b bs IH]; intros fuel Hfuel Hall; [by destruct fuel|].
  apply Forall_cons in Hall as [Hb Hall]. destruct fuel as [|fuel]; simpl in Hfuel; [lia|].
  cbn [range_runes]. destruct (Z.ltb_spec b 128) as [_|]; [|lia].
  f_equal. apply IH; [lia|done].
Qed.

Lemma digits_fold (l : list Ascii.ascii) :
  Forall is_digit l → (length l <= 18)%nat →
  let ds := (fun c => Z.of_nat (Ascii.nat_of_ascii c)) <$> l in
  foldl (fun id c => wrap64 (wrap64 (id * 10) + (c - 48))) 0 ds
  = foldl (fun v c => v * 10 + (Z.of_nat (Ascii.nat_of_ascii c) - 48)) 0 l
  ∧ 0 <= foldl (fun v c => v * 10 + (Z.of_nat (Ascii.nat_of_ascii c) - 48)) 0 l
      < 10 ^ Z.of_nat (length l).
Proof.
  induction l as [|c l IH] using rev_ind; intros Hall Hlen ds; [simpl; lia|].
  apply Forall_app in Hall as [Hall Hc]. rewrite Forall_singleton in Hc.
  rewrite length_app in Hlen. simpl in Hlen.
  destruct (IH Hall ltac:(lia)) as [Heq Hrange].
  unfold ds. rewrite fmap_app, !foldl_app. cbn [fmap list_fmap foldl].
  rewrite Heq. set (v := foldl _ 0 l) in *.
  rewrite length_app. simpl length.
  replace (Z.of_nat (length l + 1)) with (Z.succ (Z.of_nat (length l))) by lia.
  rewrite Z.pow_succ_r by lia.
  assert (Hpow : 10 ^ Z.of_nat (length l) <= 10 ^ 17)
    by (apply Z.pow_le_mono_r; lia).
  unfold is_digit in Hc.
  change (10 ^ 17) with 100000000000000000 in Hpow.
  assert (H63 : 2 ^ 63 = 9223372036854775808) by done.
  rewrite (wrap64_small (v * 10)) by (rewrite H63; lia).
  rewrite wrap64_small by (rewrite H63; lia).
  split; [done|lia].
Qed.

(** X26. [parseUserID] reads a string of up to 18 decimal digits as the
    number it denotes, without overflow; the digits the payment checker
    passes, 5 to 15 of them, are within that. *)
Theorem parseUserID_decimal (s : string) :
  Forall is_digit (String.list_ascii_of_string s) → (String.length s <= 18)%nat →
  notifier.parseUserID s = Ok (decimal_value s)
  ∧ 0 <= decimal_value s < 10 ^ Z.of_nat (String.length s).
Proof.
  intros Hdig Hlen. unfold notifier.parseUserID, decimal_value, runes, bytes.
  rewrite <- length_list_ascii in Hlen |- *.
  destruct (digits_fold _ Hdig Hlen) as [Heq Hrange].
  rewrite range_runes_ascii.
  - by rewrite Heq.
  - by rewrite length_fmap.
  - apply Forall_fmap. eapply Forall_impl; [exact Hdig|].
    intros c Hc. unfold is_digit in Hc. simpl. lia.
Qed.
End Strings.

Lemma ShortAddr_panics_iff_witness :
  ShortAddr "UQBx" (-1) = Panic ∧ ShortAddr "" (-1) ≠ Panic.
Proof.
  assert (Hn : - 2 ^ 62 <= -1 <= 2 ^ 62 - 2) by (split; vm_compute; discriminate).
  split.
  - apply (ShortAddr_panics_iff "UQBx" (-1) Hn); [reflexivity|].
    split; [discriminate|reflexivity].
  - intros HP. apply (ShortAddr_panics_iff "" (-1) Hn) in HP; [|reflexivity].
    destruct HP as [Hne _]. by apply Hne.
Defined.

Lemma ShortAddr_shortens_witness :
  ∃ r, ShortAddr "UQBxK3mPzR7vN2tYwL9c" 4 = Done r ∧ (String.length r <= 20)%nat.
Proof.
  assert (Hn : 0 <= 4 <= 2 ^ 62 - 2) by (split; vm_compute; discriminate).
  destruct (ShortAddr_shortens "UQBxK3mPzR7vN2tYwL9c" 4 Hn) as (r & Hr & Hlen & _);
    [reflexivity|discriminate|].
  exists r. split; [exact Hr|exact Hlen].
Defined.

Lemma parseUserID_decimal_witness :
  notifier.parseUserID "123456789012345" = Ok 123456789012345.
Proof.
  apply (parseUserID_decimal "123456789012345").
  - simpl. repeat (apply Forall_cons_2;
                     [split; apply Nat.leb_le; vm_compute; reflexivity|]).
    apply Forall_nil_2.
  - simpl. lia.
Defined.

(** ** The notifier: what an event sends *)

Section Notices.

Context {float64 : Type}.
Variable lt : float64 → float64 → bool.
Variable zero : float64.
Variable NanoToTON : Z → float64.
Variable JettonUnitsToAmount : string → Z → float64.

Lemma extractSwaps_elem (Actions : list Action) (swap : notifier.Swap) :
  swap ∈ notifier.extractSwaps zero NanoToTON JettonUnitsToAmount Actions ↔
  ∃ action js, action ∈ Actions ∧ Type_ action = "JettonSwap"
    ∧ JettonSwap_ action = Some js ∧ swap = notifier.swap_of zero NanoToTON JettonUnitsToAmount js.
Proof.
  unfold notifier.extractSwaps. rewrite list_elem_of_omap. split.
  - intros (action & Hin & Hf). case_bool_decide as Hty; [done|].
    destruct (JettonSwap_ action) as [js|] eqn:Hjs; [|done].
    assert (Hty' : Type_ action = "JettonSwap")
      by (by destruct (decide (Type_ action = "JettonSwap"))).
    injection Hf as <-. by exists action, js.
  - intros (action & js & Hin & Hty & Hjs & ->). exists action. split; [done|].
    rewrite bool_decide_eq_false_2 by (intros Hn; by apply Hn).
    by rewrite Hjs.
Qed.

Lemma extractSwaps_nil (Actions : list Action) :
  notifier.extractSwaps zero NanoToTON JettonUnitsToAmount Actions = [] ↔
  ∀ action, action ∈ Actions → Type_ action = "JettonSwap" → JettonSwap_ action = None.
Proof.
  split.
  - intros Hnil action Hin Hty. destruct (JettonSwap_ action) as [js|] eqn:Hjs; [|done].
    assert (Hs : notifier.swap_of zero NanoToTON JettonUnitsToAmount js ∈ notifier.extractSwaps zero NanoToTON JettonUnitsToAmount Actions)
      by (apply extractSwaps_elem; by exists action, js).
    rewrite Hnil in Hs. by apply elem_of_nil in Hs.
  - intros Hnone. destruct (notifier.extractSwaps zero NanoToTON JettonUnitsToAmount Actions) as [|swap l] eqn:Hl; [done|].
    assert (Hs : swap ∈ notifier.extractSwaps zero NanoToTON JettonUnitsToAmount Actions) by (rewrite Hl; left).
    apply extractSwaps_elem in Hs as (action & js & Hin & Hty & Hjs & _).
    rewrite (Hnone action Hin Hty) in Hjs. done.
Qed.

Lemma HandleEvent_with_swaps MinTransferTON wallet MinAmountTON event Actions :
  notifier.extractSwaps zero NanoToTON JettonUnitsToAmount Actions ≠ [] →
  notifier.HandleEvent lt zero NanoToTON JettonUnitsToAmount MinTransferTON wallet MinAmountTON event Actions
  = omap (λ swap, if notifier.below_min lt MinAmountTON (notifier.TonAmount swap) then None
                  else Some (notifier.SendNotification (UserID wallet)
                               (notifier.formatSwapMessage wallet swap)))
         (notifier.extractSwaps zero NanoToTON JettonUnitsToAmount Actions).
Proof.
  intros Hne. unfold notifier.HandleEvent.
  rewrite bool_decide_eq_false_2 by done. by rewrite app_nil_r.
Qed.

Lemma omap_all_none {A B} (f : A → option B) (l : list A) :
  (∀ x, x ∈ l → f x = None) → omap f l = [].
Proof.
  induction l as [|x l IH]; intros H; [done|]. simpl.
  rewrite (H x) by left. apply IH. intros y Hy. apply H. by right.
Qed.

Lemma swaps_all_below MinTransferTON wallet MinAmountTON event Actions :
  notifier.extractSwaps zero NanoToTON JettonUnitsToAmount Actions ≠ [] →
  (∀ swap, swap ∈ notifier.extractSwaps zero NanoToTON JettonUnitsToAmount Actions →
     notifier.below_min lt MinAmountTON (notifier.TonAmount swap) = true) →
  notifier.HandleEvent lt zero NanoToTON JettonUnitsToAmount MinTransferTON wallet MinAmountTON event Actions = [].
Proof.
  intros Hne Hall. rewrite HandleEvent_with_swaps by done.
  apply omap_all_none. intros swap Hin. by rewrite (Hall swap Hin).
Qed.

(** X27. An event with a swap action never sends a transfer notification:
    everything it sends is a swap notification, to the wallet's user, for a
    swap that is not below the wallet's minimum. This holds also when the
    minimum drops every swap: then the event sends nothing at all, whatever
    transfers it carries. *)
Theorem swap_event_sends_no_transfer MinTransferTON (wallet : Wallet) MinAmountTON
    (event : Event) (Actions : list Action) (action : Action) (js : JettonSwap) :
  action ∈ Actions → Type_ action = "JettonSwap" → JettonSwap_ action = Some js →
  (∀ sent, sent ∈ notifier.HandleEvent lt zero NanoToTON JettonUnitsToAmount MinTransferTON wallet MinAmountTON event Actions →
     ∃ swap, swap ∈ notifier.extractSwaps zero NanoToTON JettonUnitsToAmount Actions
       ∧ notifier.below_min lt MinAmountTON (notifier.TonAmount swap) = false
       ∧ sent = notifier.SendNotification (UserID wallet)
                  (notifier.formatSwapMessage wallet swap))
  ∧ ((∀ swap, swap ∈ notifier.extractSwaps zero NanoToTON JettonUnitsToAmount Actions →
        notifier.below_min lt MinAmountTON (notifier.TonAmount swap) = true) →
     notifier.HandleEvent lt zero NanoToTON JettonUnitsToAmount MinTransferTON wallet MinAmountTON event Actions = []).
Proof.
  intros Hin Hty Hjs.
  assert (Hne : notifier.extractSwaps zero NanoToTON JettonUnitsToAmount Actions ≠ []).
  { intros Hnil. rewrite extractSwaps_nil in Hnil.
    rewrite (Hnil action Hin Hty) in Hjs. done. }
  split; [|by apply swaps_all_below].
  intros sent. rewrite HandleEvent_with_swaps by done.
  rewrite list_elem_of_omap. intros (swap & Hs & Hf).
  destruct (notifier.below_min lt MinAmountTON (notifier.TonAmount swap)) eqn:Hb; [done|].
  injection Hf as <-. by exists swap.
Qed.

(** X28. What an event without swap actions sends: one notification, to the
    wallet's user, for every TonTransfer action whose recipient or sender is
    the wallet's raw address and whose amount is below neither the wallet's
    minimum nor the global one, and nothing else. The direction is "in" when
    the wallet is the recipient, also of a transfer to itself, and "out"
    when it is the sender only. *)
Theorem transfer_notifications MinTransferTON (wallet : Wallet) MinAmountTON
    (event : Event) (Actions : list Action) :
  (∀ action, action ∈ Actions → Type_ action = "JettonSwap" →
             JettonSwap_ action = None) →
  ∀ sent, sent ∈ notifier.HandleEvent lt zero NanoToTON JettonUnitsToAmount MinTransferTON wallet MinAmountTON event Actions ↔
    ∃ action tt direction,
      action ∈ Actions ∧ Type_ action = "TonTransfer" ∧ TonTransfer_ action = Some tt
      ∧ (Address (Recipient tt) = AddressRaw wallet ∧ direction = "in"
         ∨ Address (Recipient tt) ≠ AddressRaw wallet
           ∧ Address (Sender tt) = AddressRaw wallet ∧ direction = "out")
      ∧ notifier.below_min lt MinAmountTON (NanoToTON (Amount tt)) = false
      ∧ lt (NanoToTON (Amount tt)) MinTransferTON = false
      ∧ sent = notifier.SendNotification (UserID wallet)
                 (notifier.formatTransferMessage wallet
                    (notifier.mkTransfer direction (NanoToTON (Amount tt))
                       (Address (Sender tt)) (Address (Recipient tt)) (Comment tt))).
Proof.
  intros Hnone sent. apply extractSwaps_nil in Hnone.
  unfold notifier.HandleEvent. rewrite Hnone. simpl.
  rewrite list_elem_of_omap. unfold notifier.extractTransfers. split.
  - intros (tr & Htr & Hf). apply list_elem_of_omap in Htr as (action & Hin & Hq).
    case_bool_decide as Hty; [done|].
    destruct (TonTransfer_ action) as [tt|] eqn:Htt; [|done]. simpl in Hq.
    assert (Hty' : Type_ action = "TonTransfer")
      by (by destruct (decide (Type_ action = "TonTransfer"))).
    destruct (notifier.below_min lt MinAmountTON (notifier.Amount tr)) eqn:Hb; [done|].
    destruct (lt (notifier.Amount tr) MinTransferTON) eqn:Hl; [done|].
    injection Hf as <-. unfold notifier.transfer_of in Hq.
    case_bool_decide as Hr.
    + injection Hq as <-. exists action, tt, "in". simpl in *. split_and!; try done.
      by left.
    + case_bool_decide as Hs; [|done].
      injection Hq as <-. exists action, tt, "out". simpl in *. split_and!; try done.
      by right.
  - intros (action & tt & direction & Hin & Hty & Htt & Hdir & Hb & Hl & ->).
    eexists. split.
    + apply list_elem_of_omap. exists action. split; [done|].
      rewrite bool_decide_eq_false_2 by (intros Hn; by apply Hn).
      rewrite Htt. simpl. unfold notifier.transfer_of.
      destruct Hdir as [[Hr ->]|(Hr & Hs & ->)].
      * by rewrite (bool_decide_eq_true_2 _ Hr).
      * by rewrite (bool_decide_eq_false_2 _ Hr), (bool_decide_eq_true_2 _ Hs).
    + simpl. by rewrite Hb, Hl.
Qed.

(** X29. A swap that moves no TON, jetton for jetton, counts as a swap of
    zero TON: when every swap action of an event is such a swap, a wallet
    whose minimum is above zero gets nothing for the event, neither for the
    swaps nor for the transfers it carries. *)
Theorem jetton_only_swaps_silenced MinTransferTON (wallet : Wallet) (m : float64)
    (event : Event) (Actions : list Action) (action : Action) (js : JettonSwap) :
  action ∈ Actions → Type_ action = "JettonSwap" → JettonSwap_ action = Some js →
  (∀ action js, action ∈ Actions → Type_ action = "JettonSwap" →
                JettonSwap_ action = Some js → TonIn js <= 0 ∧ TonOut js <= 0) →
  lt zero m = true →
  notifier.HandleEvent lt zero NanoToTON JettonUnitsToAmount MinTransferTON wallet (Some m) event Actions = [].
Proof.
  intros Hin Hty Hjs Hall Hm. apply swaps_all_below.
  - intros Hnil. rewrite extractSwaps_nil in Hnil.
    rewrite (Hnil action Hin Hty) in Hjs. done.
  - intros swap Hs. apply extractSwaps_elem in Hs as (a & j & Ha & Hta & Hja & ->).
    destruct (Hall a j Ha Hta Hja) as [Hi Ho]. unfold notifier.swap_of.
    destruct (Z.ltb_spec 0 (TonIn j)) as [|_]; [lia|].
    destruct (Z.ltb_spec 0 (TonOut j)) as [|_]; [lia|].
    done.
Qed.

End Notices.

Lemma swap_event_sends_no_transfer_witness :
  let ev := mkEvent "e9" 1700000000 false in
  notifier.HandleEvent Z.ltb 0 id nano_amount 0 alice (Some 3000000000) ev
    [incoming_action; sell_action] = [].
Proof.
  intros ev.
  assert (Hin : sell_action ∈ [incoming_action; sell_action]) by (right; left).
  destruct (swap_event_sends_no_transfer Z.ltb 0 id nano_amount 0 alice (Some 3000000000)
              ev [incoming_action; sell_action] sell_action
              (mkJettonSwap "stonfi" 0 2000000000 "150000" "" None None)
              Hin eq_refl eq_refl) as [_ Hnone].
  apply Hnone. intros swap Hs. vm_compute in Hs.
  apply list_elem_of_singleton in Hs. subst swap. reflexivity.
Defined.

Lemma transfer_notifications_witness :
  let ev := mkEvent "e9" 1700000000 false in
  notifier.SendNotification 7
    (notifier.formatTransferMessage alice
       (notifier.mkTransfer "in" 5000000000 "0:cccccccccccc" "0:aaaaaaaaaaaa" "rent"))
  ∈ notifier.HandleEvent Z.ltb 0 id nano_amount 2000000000 alice None ev
      [foreign_action; incoming_action; outgoing_action].
Proof.
  intros ev.
  apply (transfer_notifications Z.ltb 0 id nano_amount 2000000000 alice None ev
           [foreign_action; incoming_action; outgoing_action]).
  - intros action Hin Hty. repeat (apply elem_of_cons in Hin as [->|Hin]; [done|]).
    by apply elem_of_nil in Hin.
  - exists incoming_action,
      (mkTonTransfer (mkAccount "0:cccccccccccc") (mkAccount "0:aaaaaaaaaaaa")
                     5000000000 "rent"), "in".
    split_and!; try reflexivity.
    + right; left.
    + left. split; reflexivity.
Defined.

Lemma jetton_only_swaps_silenced_witness :
  let ev := mkEvent "e9" 1700000000 false in
  notifier.HandleEvent Z.ltb 0 id nano_amount 0 alice (Some 1) ev
    [incoming_action; jetton_swap_action] = [].
Proof.
  intros ev.
  assert (Hin : jetton_swap_action ∈ [incoming_action; jetton_swap_action])
    by (right; left).
  apply (jetton_only_swaps_silenced Z.ltb 0 id nano_amount 0 alice 1 ev
           [incoming_action; jetton_swap_action] jetton_swap_action
           (mkJettonSwap "dedust" 0 0 "150000" "42" None None) Hin eq_refl eq_refl).
  - intros action js Ha Hty Hjs.
    apply elem_of_cons in Ha as [->|Ha]; [discriminate Hty|].
    apply list_elem_of_singleton in Ha. subst action.
    injection Hjs as <-. simpl. lia.
  - reflexivity.
Defined.
